(** * Verification of the YouTube video-sections generator

    A shallow embedding of [generate_video_sections.py] and the proofs of
    the properties its specification states about it.

    Python [str] values are modelled as lists of Unicode code points, file
    contents and console output as an explicit world that every effectful
    function threads through a small state-and-exception monad. *)

From Stdlib Require Import ZArith NArith Lia String Ascii DecimalString.
From stdpp Require Import base list gmap strings sorting.

(** ** Text *)

(** A code point, and a Python [str]. *)
Definition char := N.
Definition text := list char.

(** An ASCII literal as a text. *)
Definition lit (s : string) : text := map N_of_ascii (list_ascii_of_string s).

Definition c_nl : char := 10%N.      (* line feed *)
Definition c_dq : char := 34%N.      (* double quote *)
Definition c_amp : char := 38%N.     (* & *)
Definition c_lt : char := 60%N.      (* < *)
Definition c_gt : char := 62%N.      (* > *)

(** [quoted s] is [s] between double quotes. *)
Definition quoted (s : string) : text := c_dq :: lit s ++ [c_dq].

(** Python's [str.isspace] on one code point, which is also what [\s]
    matches in a [str] pattern. *)
Definition isspace (c : char) : bool :=
  ((9 <=? c) && (c <=? 13) || (28 <=? c) && (c <=? 32) || (c =? 133)
   || (c =? 160) || (c =? 5760) || (8192 <=? c) && (c <=? 8202)
   || (c =? 8232) || (c =? 8233) || (c =? 8239) || (c =? 8287)
   || (c =? 12288))%N.

(** [s.startswith(sub)]. *)
Fixpoint starts_with (sub s : text) : bool :=
  match sub, s with
  | [], _ => true
  | _ :: _, [] => false
  | x :: sub', y :: s' => (x =? y)%N && starts_with sub' s'
  end.

(** [s.find(sub)], counting from [pos]: the index of the first occurrence,
    or -1. *)
Fixpoint find_from (sub s : text) (pos : Z) : Z :=
  if starts_with sub s then pos
  else match s with
       | [] => (-1)%Z
       | _ :: s' => find_from sub s' (pos + 1)%Z
       end.

Definition str_find (s sub : text) : Z := find_from sub s 0%Z.

(** [s.replace(old, new)]: occurrences are replaced from the left and do
    not overlap; [skip] counts the characters of an occurrence still to be
    dropped. *)
Fixpoint replace_from (old new s : text) (skip : nat) : text :=
  match s with
  | [] => []
  | c :: s' =>
      match skip with
      | S k => replace_from old new s' k
      | O => if starts_with old s
             then new ++ replace_from old new s' (length old - 1)
             else c :: replace_from old new s' 0
      end
  end.

Definition str_replace (s old new : text) : text :=
  match old with
  | [] => new ++ flat_map (fun c => c :: new) s
  | _ :: _ => replace_from old new s 0
  end.

(** [sep.join(parts)]. *)
Fixpoint str_join (sep : text) (parts : list text) : text :=
  match parts with
  | [] => []
  | [p] => p
  | p :: ps => p ++ sep ++ str_join sep ps
  end.

(** [str(n)] for a length. *)
Definition str_of_nat (n : nat) : text := lit (NilZero.string_of_uint (Nat.to_uint n)).

(** [a < b] on [str]: lexicographic on code points. *)
Fixpoint text_ltb (a b : text) : bool :=
  match a, b with
  | _, [] => false
  | [], _ :: _ => true
  | x :: a', y :: b' => (x <? y)%N || ((x =? y)%N && text_ltb a' b')
  end.

(** ** Regular expressions

    The patterns of the program are sequences of literal characters and
    [\s*]; the capture groups around them do not change what is matched. *)

Inductive atom :=
  | Chr (c : char)      (* a literal character *)
  | SpaceStar.          (* \s* *)

Definition regex := list atom.

Definition literal (t : text) : regex := map Chr t.

(** Backtracking match of [p] at the start of [s], as [re] does it: [\s*]
    is greedy and gives characters back one at a time when the rest of the
    pattern fails. The result is the length of the match. *)
Fixpoint match_here (p : regex) (s : text) : option nat :=
  match p with
  | [] => Some 0
  | Chr c :: p' =>
      match s with
      | x :: s' => if (x =? c)%N then S <$> match_here p' s' else None
      | [] => None
      end
  | SpaceStar :: p' =>
      (fix star (s : text) : option nat :=
         match s with
         | x :: s' =>
             if isspace x
             then match star s' with
                  | Some n => Some (S n)
                  | None => match_here p' s
                  end
             else match_here p' s
         | [] => match_here p' s
         end) s
  end.

(** A match object: [m.start()] and [m.end()]. *)
Record re_match := ReMatch { m_start : nat; m_end : nat }.

(** [re.search]: the match at the leftmost position that has one. *)
Fixpoint search_from (p : regex) (s : text) (pos : nat) : option re_match :=
  match match_here p s with
  | Some n => Some (ReMatch pos (pos + n))
  | None => match s with
            | [] => None
            | _ :: s' => search_from p s' (S pos)
            end
  end.

Definition re_search (p : regex) (s : text) : option re_match := search_from p s 0.

(** ** Dates: [datetime.strptime] and [strftime]

    [strptime(s, '%Y%m%d')] matches [s] against the regular expression the
    library builds for the format,
    [(?P<Y>\d\d\d\d)(?P<m>1[0-2]|0[1-9]|[1-9])(?P<d>3[0-1]|[1-2]\d|0[1-9]|[1-9]| [1-9])],
    refuses a match that leaves input over, converts the groups with [int]
    and builds the date, which checks the calendar. Every failure is a
    [ValueError], modelled as [None]. *)

(** The zeros of the decimal digits of Unicode (category Nd); the nine
    code points after each are its digits 1 to 9. [\d] matches exactly
    these and [int] reads them. *)
Definition nd_zeros : list N :=
  [48; 1632; 1776; 1984; 2406; 2534; 2662; 2790; 2918; 3046; 3174; 3302;
   3430; 3558; 3664; 3792; 3872; 4160; 4240; 6112; 6160; 6470; 6608; 6784;
   6800; 6992; 7088; 7232; 7248; 42528; 43216; 43264; 43472; 43504; 43600;
   44016; 65296; 66720; 68912; 69734; 69872; 69942; 70096; 70384; 70736;
   70864; 71248; 71360; 71472; 71904; 72016; 72784; 73040; 73120; 92768;
   92864; 93008; 120782; 120792; 120802; 120812; 120822; 123200; 123632;
   125264; 130032]%N.

(** The value of a decimal digit, [None] for any other character. *)
Definition digit_value (c : char) : option Z :=
  match List.find (fun z => (z <=? c) && (c <? z + 10))%N nd_zeros with
  | Some z => Some (Z.of_N (c - z))
  | None => None
  end.

(** A character class [[lo-hi]] of ASCII digits, with the digit's value. *)
Definition digit_between (lo hi : Z) (c : char) : option Z :=
  if ((48 + Z.to_N lo <=? c) && (c <=? 48 + Z.to_N hi))%N
  then Some (Z.of_N c - 48)%Z else None.

(** One alternative of a group: the value read and the rest of the input,
    or nothing. The alternatives of a group are tried in order. *)
Definition alt2 (first second : char -> option Z) (s : text) : list (Z * text) :=
  match s with
  | a :: b :: r =>
      match first a, second b with
      | Some x, Some y => [((10 * x + y)%Z, r)]
      | _, _ => []
      end
  | _ => []
  end.

Definition alt1 (only : char -> option Z) (s : text) : list (Z * text) :=
  match s with
  | a :: r => match only a with Some x => [(x, r)] | None => [] end
  | [] => []
  end.

(** A space where the tens digit would be: the last alternative of [%d]. *)
Definition blank (c : char) : option Z := if (c =? 32)%N then Some 0%Z else None.

Definition group_Y (s : text) : list (Z * text) :=
  match s with
  | a :: b :: c :: d :: r =>
      match digit_value a, digit_value b, digit_value c, digit_value d with
      | Some x1, Some x2, Some x3, Some x4 =>
          [((1000 * x1 + 100 * x2 + 10 * x3 + x4)%Z, r)]
      | _, _, _, _ => []
      end
  | _ => []
  end.

Definition group_m (s : text) : list (Z * text) :=
  alt2 (digit_between 1 1) (digit_between 0 2) s
  ++ alt2 (digit_between 0 0) (digit_between 1 9) s
  ++ alt1 (digit_between 1 9) s.

Definition group_d (s : text) : list (Z * text) :=
  alt2 (digit_between 3 3) (digit_between 0 1) s
  ++ alt2 (digit_between 1 2) digit_value s
  ++ alt2 (digit_between 0 0) (digit_between 1 9) s
  ++ alt1 (digit_between 1 9) s
  ++ alt2 blank (digit_between 1 9) s.

(** All the ways the pattern matches a prefix of [s], in the order the
    backtracking matcher finds them; it stops at the first. *)
Definition format_matches (s : text) : list (Z * Z * Z * text) :=
  '(y, r1) ← group_Y s;
  '(m, r2) ← group_m r1;
  '(d, r3) ← group_d r2;
  [(y, m, d, r3)].

Record date := Date { year : Z; month : Z; day : Z }.

Definition is_leap (y : Z) : bool :=
  ((y mod 4 =? 0) && (negb (y mod 100 =? 0) || (y mod 400 =? 0)))%Z.

Definition days_in_month (y m : Z) : Z :=
  if (m =? 2)%Z then (if is_leap y then 29 else 28)%Z
  else if ((m =? 4) || (m =? 6) || (m =? 9) || (m =? 11))%Z then 30%Z
  else 31%Z.

(** The constructor of a date: [ValueError] outside the calendar. *)
Definition make_date (y m d : Z) : option date :=
  if ((1 <=? y) && (y <=? 9999) && (1 <=? m) && (m <=? 12)
      && (1 <=? d) && (d <=? days_in_month y m))%Z
  then Some (Date y m d) else None.

Definition strptime_Ymd (s : text) : option date :=
  match format_matches s with
  | [] => None                               (* does not match the format *)
  | (y, m, d, rest) :: _ =>
      match rest with
      | [] => make_date y m d
      | _ :: _ => None                       (* unconverted data remains *)
      end
  end.

Definition month_names : list string :=
  ["January"; "February"; "March"; "April"; "May"; "June"; "July";
   "August"; "September"; "October"; "November"; "December"]%string.

(** [%B]: the month's full name, in the C locale the script runs in. *)
Definition month_name (m : Z) : text :=
  lit (nth (Z.to_nat (m - 1)) month_names EmptyString).

Definition digit_char (k : Z) : char := (48 + Z.to_N k)%N.

(** [%d]: the day, two digits. *)
Definition two_digits (n : Z) : text :=
  [digit_char (n / 10 mod 10); digit_char (n mod 10)].

Definition four_digits (n : Z) : text :=
  [digit_char (n / 1000 mod 10); digit_char (n / 100 mod 10);
   digit_char (n / 10 mod 10); digit_char (n mod 10)].

(** [%Y]: the year as a decimal number. The C library does the formatting
    and does not pad: a year from 1000 on has its four digits, an earlier
    one has three, two or one, as in ['January 01, 999'] for the first day
    of the year 999. The years of a [datetime] are 1 to 9999. *)
Definition strftime_Y (y : Z) : text :=
  if (y <? 10)%Z then [digit_char (y mod 10)]
  else if (y <? 100)%Z then [digit_char (y / 10 mod 10); digit_char (y mod 10)]
  else if (y <? 1000)%Z then
    [digit_char (y / 100 mod 10); digit_char (y / 10 mod 10);
     digit_char (y mod 10)]
  else four_digits y.

(** [d.strftime('%B %d, %Y')]. *)
Definition strftime_BdY (d : date) : text :=
  month_name (month d) ++ lit " " ++ two_digits (day d) ++ lit ", "
  ++ strftime_Y (year d).

(** ** The world: files and console *)

(** Files hold text (they are read and written as UTF-8), the console is
    the list of the strings printed so far. *)
Record world := World { files : gmap string text; stdout : list text }.

Inductive exn :=
  | FileNotFoundError (path : string).

Inductive outcome (A : Type) :=
  | Returned (a : A) (w : world)
  | Raised (e : exn) (w : world).
Arguments Returned {A} a w.
Arguments Raised {A} e w.

Definition final_world {A} (o : outcome A) : world :=
  match o with Returned _ w => w | Raised _ w => w end.

(** A computation that reads and changes the world and may raise. *)
Definition M (A : Type) : Type := world -> outcome A.

Definition ret {A} (a : A) : M A := fun w => Returned a w.

Definition bind {A B} (m : M A) (k : A -> M B) : M B :=
  fun w => match m w with
           | Returned a w' => k a w'
           | Raised e w' => Raised e w'
           end.

(** With these instances [x ← m; k] and [m;; k] are [bind]. *)
#[export] Instance M_ret : MRet M := @ret.
#[export] Instance M_bind : MBind M := fun A B k m => bind m k.

(** [print(s)]. *)
Definition print (s : text) : M unit :=
  fun w => Returned tt (World (files w) (stdout w ++ [s])).

(** [open(path, 'r').read()]. *)
Definition read_file (path : string) : M text :=
  fun w => match files w !! path with
           | Some content => Returned content w
           | None => Raised (FileNotFoundError path) w
           end.

(** [open(path, 'w').write(s)]. *)
Definition write_file (path : string) (s : text) : M unit :=
  fun w => Returned tt (World (<[path := s]> (files w)) (stdout w)).

(** [dir / name] on paths. *)
Definition path_join (dir name : string) : string := dir +:+ "/" +:+ name.

(** ** The program *)

(** A video as [fetch_channel_videos] builds it: a dictionary with these
    five keys. *)
Record video_data := VideoData {
  title : text;
  video_id : text;
  url : text;
  upload_date : text;
  description : text
}.

(** An entry of the channel listing as the video library returns it; a key
    that is absent is [None]. *)
Record yt_entry := YtEntry {
  e_id : option text;
  e_title : option text;
  e_upload_date : option text;
  e_description : option text
}.

(** What [extract_info] does: it raises, or returns the information of the
    channel, with or without an ['entries'] key; an entry may be [None]. *)
Inductive extract_result :=
  | ExtractRaises (message : text)
  | ExtractInfo (entries : option (list (option yt_entry))).

(** The body of the loop over the entries: entries that are [None] or have
    no id are skipped. *)
Definition video_of_entry (entry : option yt_entry) : option video_data :=
  match entry with
  | Some e =>
      match e_id e with
      | Some (c :: id') =>
          let video_id := c :: id' in
          Some {| title := default (lit "Untitled") (e_title e);
                  video_id := video_id;
                  url := lit "https://youtu.be/" ++ video_id;
                  upload_date := default [] (e_upload_date e);
                  description := default [] (e_description e) |}
      | _ => None
      end
  | None => None
  end.

Definition fetch_channel_videos (extract_info : extract_result)
    (channel_handle : text) : M (list video_data) :=
  let channel_url := lit "https://www.youtube.com/" ++ channel_handle ++ lit "/videos" in
  print (lit "Fetching videos from " ++ channel_url ++ lit "...") ;;
  match extract_info with
  | ExtractInfo info =>
      let videos :=
        match info with
        | Some entries => omap video_of_entry entries
        | None => []
        end in
      print (lit "Found " ++ str_of_nat (length videos) ++ lit " videos") ;;
      ret videos
  | ExtractRaises e =>
      print (lit "Error fetching videos: " ++ e) ;;
      ret []
  end.

Definition format_date (upload_date : text) : text :=
  if bool_decide (upload_date = []) || negb (length upload_date =? 8)
  then lit "Date unknown"
  else match strptime_Ymd upload_date with
       | Some date_obj => strftime_BdY date_obj
       | None => lit "Date unknown"
       end.

(** The four literal parts of the template of a video section, around the
    title, the date and the link. *)
Definition section_before_title : text :=
  lit "            <!-- Video Section -->" ++ [c_nl]
  ++ lit "            <div class=" ++ quoted "video-section" ++ lit ">" ++ [c_nl]
  ++ lit "                <h2 class=" ++ quoted "video-title" ++ lit ">".

Definition section_before_date : text :=
  lit "</h2>" ++ [c_nl]
  ++ lit "                <p class=" ++ quoted "video-date" ++ lit ">Published: ".

Definition section_before_url : text :=
  lit "</p>" ++ [c_nl]
  ++ lit "                <a href=" ++ [c_dq].

Definition section_after_url : text :=
  [c_dq] ++ lit " class=" ++ quoted "video-link" ++ lit " target="
  ++ quoted "_blank" ++ lit ">" ++ [c_nl]
  ++ lit "                    " ++ [226; 8211; 182]%N ++ lit " Watch on YouTube" ++ [c_nl]
  ++ lit "                </a>" ++ [c_nl]
  ++ lit "                <div class=" ++ quoted "scripts-grid" ++ lit ">" ++ [c_nl]
  ++ lit "                    <!-- Add script files here -->" ++ [c_nl]
  ++ lit "                </div>" ++ [c_nl]
  ++ lit "            </div>".

Definition generate_video_section_html (video : video_data) : text :=
  let formatted_date := format_date (upload_date video) in
  let title' :=
    str_replace
      (str_replace (str_replace (title video) (lit "&") (lit "&amp;"))
         (lit "<") (lit "&lt;"))
      (lit ">") (lit "&gt;") in
  section_before_title ++ title' ++ section_before_date ++ formatted_date
  ++ section_before_url ++ url video ++ section_after_url.

(** The opening tag of the content container. *)
Definition content_tag : text := lit "<div class=" ++ quoted "content" ++ lit ">".

Definition closing_div : text := lit "</div>".
Definition closing_body : text := lit "</body>".

(** [(<div class="content">)] *)
Definition content_start_re : regex := literal content_tag.

(** [</div>\s*</div>\s*</body>] *)
Definition end_pattern_re : regex :=
  literal closing_div ++ SpaceStar :: literal closing_div
  ++ SpaceStar :: literal closing_body.

(** [(\s*</div>\s*</div>\s*</body>)] *)
Definition content_end_re : regex := SpaceStar :: end_pattern_re.

Definition last_resort (content : text) : M (text * text) :=
  print (lit "Warning: Could not parse HTML structure. Using fallback.") ;;
  ret (content, []).

Definition read_existing_html (file_path : string) : M (text * text) :=
  content ← read_file file_path;
  let content_start_match := re_search content_start_re content in
  let content_end_match := re_search content_end_re content in
  match content_start_match, content_end_match with
  | Some start_m, Some end_m =>
      let header := take (m_end start_m) content in
      let footer := drop (m_start end_m) content in
      ret (header, footer)
  | _, _ =>
      let start_idx := str_find content content_tag in
      if negb (start_idx =? -1)%Z then
        match re_search end_pattern_re content with
        | Some end_pattern =>
            let header := take (Z.to_nat (start_idx + Z.of_nat (length content_tag))) content in
            let footer := drop (m_start end_pattern) content in
            ret (header, footer)
        | None => last_resort content
        end
      else last_resort content
  end.

(** [sorted(l, key=key, reverse=True)]: descending by key, and stable, so
    elements with equal keys keep the order they came in. *)
Fixpoint insert_desc {A} (key : A -> text) (x : A) (l : list A) : list A :=
  match l with
  | [] => [x]
  | y :: l' => if text_ltb (key x) (key y) then y :: insert_desc key x l' else x :: l
  end.

Definition sorted_desc {A} (key : A -> text) (l : list A) : list A :=
  foldr (insert_desc key) [] l.

(** The sort key of a video. *)
Definition date_key (x : video_data) : text :=
  match upload_date x with
  | [] => lit "00000000"
  | _ :: _ => upload_date x
  end.

Definition videos_sorted (videos : list video_data) : list video_data :=
  sorted_desc date_key videos.

Definition video_sections (videos : list video_data) : list text :=
  map generate_video_section_html (videos_sorted videos).

Definition content_html (videos : list video_data) : text :=
  lit "        <div class=" ++ quoted "content" ++ lit ">" ++ [c_nl]
  ++ str_join [c_nl] (video_sections videos)
  ++ [c_nl] ++ lit "        </div>".

Definition complete_html (header footer : text) (videos : list video_data) : text :=
  header ++ content_html videos ++ footer.

Definition rule : text := replicate 60 61%N.     (* "=" * 60 *)

Definition generate_html_file (videos : list video_data) (output_path : string)
    (dry_run : bool) (output_text_file : option string) : M unit :=
  hf ← read_existing_html output_path;
  let '(header, footer) := hf in
  let complete_html := complete_html header footer videos in
  match output_text_file with
  | Some text_file =>
      write_file text_file complete_html ;;
      print ([c_nl] ++ lit "Complete HTML written to: " ++ lit text_file)
  | None => ret tt
  end ;;
  if dry_run then
    print ([c_nl] ++ lit "Would generate HTML file with "
           ++ str_of_nat (length (videos_sorted videos)) ++ lit " video sections") ;;
    print ([c_nl] ++ rule) ;;
    print (lit "PREVIEW OF GENERATED CONTENT:") ;;
    print rule ;;
    print (content_html videos) ;;
    print rule
  else
    write_file output_path complete_html ;;
    print (lit "Generated HTML file with "
           ++ str_of_nat (length (videos_sorted videos))
           ++ lit " video sections: " ++ lit output_path).

(** [main]; [script_dir] is the directory of the script and
    [extract_info] what the video library answers. *)
Definition main (script_dir : string) (extract_info : extract_result) : M unit :=
  let channel_handle := lit "@PyStructEng" in
  let output_file := path_join script_dir "video-scripts.html" in
  print rule ;;
  print (lit "YouTube Video Sections Generator") ;;
  print rule ;;
  videos ← fetch_channel_videos extract_info channel_handle;
  match videos with
  | [] => print (lit "No videos found. Exiting.")
  | _ :: _ =>
      let output_text_file := path_join script_dir "video-scripts-output.txt" in
      generate_html_file videos output_file true (Some output_text_file) ;;
      print rule ;;
      print (lit "Done! You can now manually add script files to each video section.") ;;
      print rule
  end.

(** ** The vocabulary of the specification *)

(** [t] occurs in [s] at index [i]. *)
Definition occurs_at (t s : text) (i : nat) : Prop :=
  i <= length s /\ exists r, drop i s = t ++ r.

Definition first_occurrence (t s : text) (i : nat) : Prop :=
  occurs_at t s i /\ forall j, j < i -> ~ occurs_at t s j.

Definition contains (t s : text) : Prop := exists i, occurs_at t s i.

Definition all_space (w : text) : Prop := Forall (fun c => isspace c = true) w.

(** [s] begins with the closing sequence: [</div>], [</div>], [</body>],
    with nothing but whitespace between them. *)
Definition closing_sequence (s : text) : Prop :=
  exists w1 w2 r,
    s = closing_div ++ w1 ++ closing_div ++ w2 ++ closing_body ++ r
    /\ all_space w1 /\ all_space w2.

(** The closing sequence occurs in [s] at index [j]. *)
Definition closing_at (s : text) (j : nat) : Prop :=
  j <= length s /\ closing_sequence (drop j s).

Definition first_closing (s : text) (j : nat) : Prop :=
  closing_at s j /\ forall j', j' < j -> ~ closing_at s j'.

Definition contains_closing (s : text) : Prop := exists j, closing_at s j.

(** [s] does not end in whitespace. *)
Definition no_trailing_space (s : text) : Prop :=
  forall c, last s = Some c -> isspace c = false.

(** The entity that stands for a character of a title. *)
Definition entity (c : char) : text :=
  if (c =? c_amp)%N then lit "&amp;"
  else if (c =? c_lt)%N then lit "&lt;"
  else if (c =? c_gt)%N then lit "&gt;"
  else [c].

(** A date of the calendar. *)
Definition valid_date (y m d : Z) : Prop :=
  (1 <= y <= 9999 /\ 1 <= m <= 12 /\ 1 <= d <= days_in_month y m)%Z.

(** The eight digits [YYYYMMDD] of a date. *)
Definition yyyymmdd (y m d : Z) : text :=
  four_digits y ++ two_digits m ++ two_digits d.

(** ** Devices of the proofs: matching without backtracking

    In the patterns of the program a [\s*] is always followed by a literal
    character that is not whitespace, so the matcher never has a choice:
    [step] is the derivative of a pattern by one character and [run] by a
    text. The pattern has matched when nothing of it is left. *)

Fixpoint unambiguous (p : regex) : bool :=
  match p with
  | [] => true
  | Chr _ :: p' => unambiguous p'
  | SpaceStar :: p' =>
      match p' with
      | Chr c :: _ => negb (isspace c) && unambiguous p'
      | _ => false
      end
  end.

Fixpoint step (p : regex) (c : char) : option regex :=
  match p with
  | [] => Some []
  | Chr x :: p' => if (c =? x)%N then Some p' else None
  | SpaceStar :: p' => if isspace c then Some p else step p' c
  end.

Fixpoint run (p : regex) (s : text) : option regex :=
  match s with
  | [] => Some p
  | c :: s' => match step p c with
               | Some p' => run p' s'
               | None => None
               end
  end.

(** What can be left of a pattern after a literal character of it. *)
Fixpoint after_chr (p : regex) : list regex :=
  match p with
  | [] => []
  | Chr _ :: p' => p' :: after_chr p'
  | SpaceStar :: p' => after_chr p'
  end.

(** The states [run] can be in. *)
Definition states (p : regex) : list regex := p :: after_chr p.

Definition is_nil {A} (l : list A) : bool :=
  match l with [] => true | _ :: _ => false end.

Definition is_none {A} (o : option A) : bool :=
  match o with None => true | Some _ => false end.

(** The match of the closing pattern is complete. *)
Definition finished (o : option regex) : bool :=
  match o with Some [] => true | _ => false end.

(** Every match that is under way when [l] begins fails inside [l]. *)
Definition kills (l : text) : bool :=
  forallb (fun q => is_nil q || is_none (run q l)) (states content_end_re).

(** The state of the matcher after one and after two [</div>]. *)
Definition after_one_div : regex :=
  SpaceStar :: literal closing_div ++ SpaceStar :: literal closing_body.
Definition after_two_divs : regex := SpaceStar :: literal closing_body.

Definition atom_eqb (a b : atom) : bool :=
  match a, b with
  | Chr x, Chr y => (x =? y)%N
  | SpaceStar, SpaceStar => true
  | _, _ => false
  end.

Fixpoint regex_eqb (p q : regex) : bool :=
  match p, q with
  | [], [] => true
  | a :: p', b :: q' => atom_eqb a b && regex_eqb p' q'
  | _, _ => false
  end.

(** A match that begins inside [l] has failed at the end of [l], or is in
    one of the states [allowed] there. *)
Definition exits (allowed : list regex) (l : text) : bool :=
  forallb (fun i => match run content_end_re (drop i l) with
                    | None => true
                    | Some q => existsb (regex_eqb q) allowed
                    end) (seq 0 (length l)).

(** No match of the closing pattern begins inside [x] when [r] follows. *)
Definition clear (x r : text) : Prop :=
  forall i, i < length x -> run content_end_re (drop i x ++ r) <> Some [].

(** No match of the closing pattern begins at the start of [r]. *)
Definition blocked (r : text) : Prop := run content_end_re r <> Some [].

(** No match that has read its first or its second [</div>] ends in [r]. *)
Definition sealed (r : text) : Prop :=
  run after_one_div r <> Some [] /\ run after_two_divs r <> Some [].

(** The two literal parts of the content wrapper. *)
Definition wrapper_open : text :=
  lit "        <div class=" ++ quoted "content" ++ lit ">" ++ [c_nl].
Definition wrapper_close : text := [c_nl] ++ lit "        </div>".

(** A title with each of its characters replaced by its entity. *)
Definition escaped (t : text) : text := flat_map entity t.

(** [c] does not occur in [s]. *)
Definition lacks (c : char) (s : text) : bool := forallb (fun x => negb (x =? c)%N) s.

(** [</div></div></body>] *)
Definition final_closing : text := closing_div ++ closing_div ++ closing_body.

(** The splitter without its fallback: the primary strategy or the last
    resort. *)
Definition read_existing_html_two_cases (file_path : string) : M (text * text) :=
  content ← read_file file_path;
  match re_search content_start_re content, re_search content_end_re content with
  | Some start_m, Some end_m =>
      ret (take (m_end start_m) content, drop (m_start end_m) content)
  | _, _ => last_resort content
  end.

(** The fallback strategy finds both of its boundaries. *)
Definition fallback_succeeds (content : text) : Prop :=
  str_find content content_tag <> (-1)%Z
  /\ is_Some (re_search end_pattern_re content).

(** The primary strategy finds both of its boundaries. *)
Definition primary_succeeds (content : text) : Prop :=
  is_Some (re_search content_start_re content)
  /\ is_Some (re_search content_end_re content).

(** The console after the warning of the last resort. *)
Definition warned (w : world) : world :=
  World (files w)
        (stdout w ++ [lit "Warning: Could not parse HTML structure. Using fallback."]).

(** The footer is the closing tags alone, whatever the old content is. *)
Definition footer_is_closing_tags_verbatim : Prop :=
  forall w p H OLD,
    files w !! p = Some (H ++ content_tag ++ OLD ++ final_closing) ->
    ~ contains_closing OLD ->
    read_existing_html p w = Returned (H ++ content_tag, final_closing) w.

(** Splitting the document assembled from a split yields that split again,
    for every document and every list of videos. *)
Definition resplit_always_same : Prop :=
  forall w p content header footer videos w2 q,
    files w !! p = Some content ->
    primary_succeeds content ->
    read_existing_html p w = Returned (header, footer) w ->
    files w2 !! q = Some (complete_html header footer videos) ->
    read_existing_html q w2 = Returned (header, footer) w2.

(** The lines of the preview. *)
Definition preview_lines (videos : list video_data) : list text :=
  [ [c_nl] ++ lit "Would generate HTML file with "
      ++ str_of_nat (length (videos_sorted videos)) ++ lit " video sections";
    [c_nl] ++ rule;
    lit "PREVIEW OF GENERATED CONTENT:";
    rule;
    content_html videos;
    rule ].


(** [b] is not before [a] in the descending order of the sort keys. *)
Definition not_after (a b : video_data) : Prop :=
  text_ltb (date_key a) (date_key b) = false.

(** The character after an ampersand begins the rest of an entity. *)
Definition begins_entity_tail (post : text) : Prop :=
  starts_with (lit "amp;") post = true
  \/ starts_with (lit "lt;") post = true
  \/ starts_with (lit "gt;") post = true.

(** The ways the month and the day groups match, after the year. *)
Definition month_day_matches (s : text) : list (Z * Z * text) :=
  '(m, r2) ← group_m s;
  '(d, r3) ← group_d r2;
  [(m, d, r3)].

(** A month and a day that some month of some year has. *)
Definition month_day_in_range (m d : Z) : bool :=
  ((1 <=? m) && (m <=? 12) && (1 <=? d) && (d <=? 31))%Z.





(** The first match of the month and day groups on four digits reads them
    as they are when they are in range, and otherwise there is no match or
    input is left over. *)
Definition month_day_read (m d : Z) : bool :=
  match month_day_matches (two_digits m ++ two_digits d) with
  | (m', d', []) :: _ => (m' =? m)%Z && (d' =? d)%Z && month_day_in_range m d
  | _ => negb (month_day_in_range m d)
  end.

(** The videos [fetch_channel_videos] returns. *)
Definition fetched_videos (extract_info : extract_result) : list video_data :=
  match extract_info with
  | ExtractInfo (Some entries) => omap video_of_entry entries
  | _ => []
  end.

(** The entry of the end-to-end example and the fragment rendered for it. *)
Definition example_entry : yt_entry :=
  YtEntry (Some (lit "abc123")) (Some (lit "A & B")) (Some (lit "20240101")) None.

Definition example_fragment : text :=
  section_before_title ++ lit "A &amp; B" ++ section_before_date
  ++ lit "January 01, 2024" ++ section_before_url
  ++ lit "https://youtu.be/abc123" ++ section_after_url.

(** ** Further vocabulary *)

(** The title as [generate_video_section_html] writes it: the three
    replacements, one after the other. *)
Definition title_replacements (t : text) : text :=
  str_replace
    (str_replace (str_replace t (lit "&") (lit "&amp;")) (lit "<") (lit "&lt;"))
    (lit ">") (lit "&gt;").

(** How often [c] occurs in [s]. *)
Definition count_char (c : char) (s : list char) : nat :=
  length (filter (fun x => x = c) s).

(** A date as one number, [YYYYMMDD]: later dates are greater. *)
Definition date_number (y m d : Z) : Z := (y * 10000 + m * 100 + d)%Z.

(** The number a text of ASCII digits writes. *)
Fixpoint digits_value (s : text) : Z :=
  match s with
  | [] => 0%Z
  | c :: s' => ((Z.of_N c - 48) * 10 ^ Z.of_nat (length s') + digits_value s')%Z
  end.

(** The ids the entries of a listing carry, those that are not empty. *)
Definition entry_ids (entries : list (option yt_entry)) : list text :=
  filter (fun id => id <> []) (omap (fun entry => entry ≫= e_id) entries).

(** The files after [generate_html_file] has written [document]: the side
    file when there is one, and the output file unless the run is dry. *)
Definition files_after (fs : gmap string text) (output_path : string)
    (dry_run : bool) (output_text_file : option string) (document : text)
    : gmap string text :=
  let fs1 := match output_text_file with
             | Some text_file => <[text_file := document]> fs
             | None => fs
             end in
  if dry_run then fs1 else <[output_path := document]> fs1.

(** An ASCII digit. *)
Definition is_digit (c : char) : Prop := (48 <= c <= 57)%N.

(** ** Facts about texts *)

Lemma starts_with_spec sub s :
  starts_with sub s = true <-> exists r, s = sub ++ r.
Proof.
  revert s; induction sub as [|x sub IH]; intros s; simpl.
  - split; eauto.
  - destruct s as [|y s]; simpl.
    + split; [discriminate | intros [r Hr]; discriminate].
    + rewrite andb_true_iff, N.eqb_eq, IH. split.
      * intros [-> [r ->]]; eauto.
      * intros [r Hr]. injection Hr as -> ->. eauto.
Qed.

Lemma starts_with_app t r : starts_with t (t ++ r) = true.
Proof. apply starts_with_spec; eauto. Qed.

Lemma occurs_at_starts_with t s i :
  occurs_at t s i <-> i <= length s /\ starts_with t (drop i s) = true.
Proof. unfold occurs_at. now rewrite starts_with_spec. Qed.

Lemma all_space_app w1 w2 : all_space (w1 ++ w2) <-> all_space w1 /\ all_space w2.
Proof. apply Forall_app. Qed.

(** ** The matcher and its derivative *)

Lemma match_here_literal t s :
  match_here (literal t) s = if starts_with t s then Some (length t) else None.
Proof.
  revert s; induction t as [|c t IH]; intros [|x s]; simpl; try reflexivity.
  rewrite N.eqb_sym. destruct (c =? x)%N; simpl; [|reflexivity].
  rewrite IH. now destruct (starts_with t s).
Qed.

Lemma match_here_star c p x s :
  isspace c = false ->
  match_here (SpaceStar :: Chr c :: p) (x :: s)
  = if isspace x then S <$> match_here (SpaceStar :: Chr c :: p) s
    else match_here (Chr c :: p) (x :: s).
Proof.
  intros Hc. cbn [match_here].
  destruct (isspace x) eqn:Hx; [|reflexivity].
  match goal with |- context [match ?m with Some _ => _ | None => _ end] =>
    destruct m end; [reflexivity|].
  destruct (x =? c)%N eqn:E; [|reflexivity].
  apply N.eqb_eq in E. congruence.
Qed.

Lemma match_here_star_nil c p :
  match_here (SpaceStar :: Chr c :: p) [] = None.
Proof. reflexivity. Qed.

Lemma run_nil_pattern s : run [] s = Some [].
Proof. induction s; simpl; auto. Qed.

Lemma run_app p a b : run p (a ++ b) = run p a ≫= fun q => run q b.
Proof.
  revert p; induction a as [|c a IH]; intros p; simpl; [reflexivity|].
  destruct (step p c); simpl; auto.
Qed.

Lemma step_space p c : isspace c = true -> step (SpaceStar :: p) c = Some (SpaceStar :: p).
Proof. intros H; simpl; now rewrite H. Qed.

Lemma run_space p w : all_space w -> run (SpaceStar :: p) w = Some (SpaceStar :: p).
Proof.
  induction 1 as [|c w Hc _ IH]; [reflexivity|].
  cbn [run]. now rewrite step_space.
Qed.

Lemma run_literal t p r : run (literal t ++ p) (t ++ r) = run p r.
Proof.
  induction t as [|c t IH]; simpl; [reflexivity|].
  now rewrite N.eqb_refl.
Qed.

(** Backtracking finds a match exactly when the derivative leaves nothing. *)
Lemma match_here_run p s :
  unambiguous p = true -> (is_Some (match_here p s) <-> run p s = Some []).
Proof.
  revert s; induction p as [|[c|] p IH]; intros s Hp.
  - rewrite run_nil_pattern. simpl. split; eauto.
  - simpl in Hp. destruct s as [|x s]; simpl.
    + split; [intros [? ?]; discriminate | discriminate].
    + rewrite (N.eqb_sym x c). destruct (c =? x)%N; simpl.
      * rewrite <- IH by assumption. rewrite fmap_is_Some. reflexivity.
      * split; [intros [? ?]; discriminate | discriminate].
  - cbn [unambiguous] in Hp. destruct p as [|[c|] p]; try discriminate.
    apply andb_true_iff in Hp as [Hc Hp]. apply negb_true_iff in Hc.
    induction s as [|x s IHs].
    + rewrite match_here_star_nil. simpl.
      split; [intros [? ?]; discriminate | discriminate].
    + rewrite match_here_star by assumption. cbn [run step].
      destruct (isspace x) eqn:Hx.
      * rewrite fmap_is_Some. exact IHs.
      * rewrite (IH (x :: s) Hp). reflexivity.
Qed.

Lemma match_here_run_none p s :
  unambiguous p = true -> (match_here p s = None <-> run p s <> Some []).
Proof.
  intros Hp. now rewrite eq_None_not_Some, (match_here_run p s Hp).
Qed.

(** ** Searching *)

Lemma search_from_first p s pos i n :
  i <= length s ->
  match_here p (drop i s) = Some n ->
  (forall j, j < i -> match_here p (drop j s) = None) ->
  search_from p s pos = Some (ReMatch (pos + i) (pos + i + n)).
Proof.
  revert pos i; induction s as [|x s IH]; intros pos i Hi Hm Hfirst.
  - assert (i = 0) as -> by (simpl in Hi; lia).
    simpl in *. rewrite Hm. now rewrite Nat.add_0_r.
  - destruct i as [|i].
    + simpl in Hm. cbn [search_from]. rewrite Hm. now rewrite Nat.add_0_r.
    + cbn [search_from].
      pose proof (Hfirst 0 ltac:(lia)) as H0. simpl in H0. rewrite H0.
      rewrite (IH (S pos) i).
      * f_equal. f_equal; lia.
      * simpl in Hi; lia.
      * exact Hm.
      * intros j Hj. apply (Hfirst (S j)). lia.
Qed.

Lemma search_from_some p s pos m :
  search_from p s pos = Some m ->
  exists i n, m = ReMatch (pos + i) (pos + i + n) /\ i <= length s
    /\ match_here p (drop i s) = Some n
    /\ forall j, j < i -> match_here p (drop j s) = None.
Proof.
  revert pos; induction s as [|x s IH]; intros pos; cbn [search_from].
  - destruct (match_here p []) as [n|] eqn:E; [|discriminate].
    intros [= <-]. exists 0, n. rewrite Nat.add_0_r. repeat split; auto. lia.
  - destruct (match_here p (x :: s)) as [n|] eqn:E.
    + intros [= <-]. exists 0, n. rewrite Nat.add_0_r. simpl. repeat split; auto; lia.
    + intros H. apply IH in H as (i & n & -> & Hi & Hm & Hfirst).
      exists (S i), n. repeat split.
      * f_equal; lia.
      * simpl; lia.
      * exact Hm.
      * intros [|j] Hj; [exact E | apply Hfirst; lia].
Qed.

Lemma search_from_none p s pos :
  search_from p s pos = None <-> forall j, match_here p (drop j s) = None.
Proof.
  revert pos; induction s as [|x s IH]; intros pos; cbn [search_from].
  - split.
    + destruct (match_here p []) eqn:E; [discriminate|].
      intros _ j. now rewrite drop_nil.
    + intros H. specialize (H 0). simpl in H. now rewrite H.
  - split.
    + destruct (match_here p (x :: s)) eqn:E; [discriminate|].
      intros H [|j]; [exact E|]. simpl. now apply (IH (S pos)).
    + intros H. pose proof (H 0) as H0. simpl in H0. rewrite H0.
      apply IH. intros j. apply (H (S j)).
Qed.

(** The same facts through the derivative, for the patterns it decides. *)
Section Search.
Variable p : regex.
Hypothesis p_unambiguous : unambiguous p = true.

Lemma re_search_first s i :
  i <= length s ->
  run p (drop i s) = Some [] ->
  (forall j, j < i -> run p (drop j s) <> Some []) ->
  exists e, re_search p s = Some (ReMatch i e).
Proof using p_unambiguous.
  intros Hi Hm Hfirst.
  apply (match_here_run p _ p_unambiguous) in Hm as [n Hn].
  exists (i + n). apply (search_from_first p s 0 i n Hi Hn).
  intros j Hj. apply match_here_run_none; auto.
Qed.

Lemma re_search_some s m :
  re_search p s = Some m ->
  m_start m <= length s
  /\ run p (drop (m_start m) s) = Some []
  /\ forall j, j < m_start m -> run p (drop j s) <> Some [].
Proof using p_unambiguous.
  intros H. apply search_from_some in H as (i & n & -> & Hi & Hm & Hfirst).
  simpl. repeat split; auto.
  - apply match_here_run; eauto.
  - intros j Hj. apply match_here_run_none; auto.
Qed.

Lemma re_search_none s :
  re_search p s = None <-> forall j, run p (drop j s) <> Some [].
Proof using p_unambiguous.
  unfold re_search. rewrite search_from_none.
  split; intros H j; apply match_here_run_none; auto.
Qed.
End Search.

Lemma re_search_literal_some t s m :
  re_search (literal t) s = Some m ->
  first_occurrence t s (m_start m) /\ m_end m = m_start m + length t.
Proof.
  intros H. apply search_from_some in H as (i & n & -> & Hi & Hm & Hfirst).
  simpl. rewrite match_here_literal in Hm.
  destruct (starts_with t (drop i s)) eqn:E; [|discriminate].
  injection Hm as <-. split; [|reflexivity]. split.
  - apply occurs_at_starts_with; auto.
  - intros j Hj [_ Hocc%starts_with_spec].
    specialize (Hfirst j Hj). rewrite match_here_literal, Hocc in Hfirst.
    discriminate.
Qed.

Lemma re_search_literal_first t s i :
  first_occurrence t s i ->
  re_search (literal t) s = Some (ReMatch i (i + length t)).
Proof.
  intros [[Hi Hocc%starts_with_spec] Hfirst].
  apply (search_from_first (literal t) s 0 i (length t) Hi).
  - now rewrite match_here_literal, Hocc.
  - intros j Hj. rewrite match_here_literal.
    destruct (starts_with t (drop j s)) eqn:E; [|reflexivity].
    exfalso. apply (Hfirst j Hj). apply occurs_at_starts_with. split; [lia|auto].
Qed.

Lemma re_search_literal_none t s :
  re_search (literal t) s = None <-> ~ contains t s.
Proof.
  unfold re_search. rewrite search_from_none. split.
  - intros H [i [_ Hocc%starts_with_spec]].
    specialize (H i). rewrite match_here_literal, Hocc in H. discriminate.
  - intros H j. rewrite match_here_literal.
    destruct (starts_with t (drop j s)) eqn:E; [|reflexivity].
    exfalso. apply H.
    destruct (decide (j <= length s)) as [Hj|Hj].
    + exists j. apply occurs_at_starts_with; auto.
    + exists (length s). apply occurs_at_starts_with. split; [lia|].
      rewrite drop_ge in E by lia. now rewrite drop_all.
Qed.

(** [str.find] finds what the literal pattern finds. *)
Lemma find_from_search t s pos :
  find_from t s (Z.of_nat pos)
  = match search_from (literal t) s pos with
    | Some m => Z.of_nat (m_start m)
    | None => (-1)%Z
    end.
Proof.
  revert pos; induction s as [|x s IH]; intros pos;
    cbn [find_from search_from]; rewrite match_here_literal.
  - now destruct (starts_with t []).
  - destruct (starts_with t (x :: s)); [reflexivity|].
    rewrite <- IH. f_equal. lia.
Qed.

(** ** The closing pattern and the closing sequence *)

Lemma run_star_skip p c s :
  isspace c = false -> run (SpaceStar :: p) (c :: s) = run p (c :: s).
Proof. intros H. cbn [run step]. now rewrite H. Qed.

Lemma run_star_literal c t p w r :
  isspace c = false -> all_space w ->
  run (SpaceStar :: literal (c :: t) ++ p) (w ++ (c :: t) ++ r) = run p r.
Proof.
  intros Hc Hw. rewrite run_app, run_space by assumption.
  change (run (SpaceStar :: literal (c :: t) ++ p) (c :: (t ++ r)) = run p r).
  rewrite run_star_skip by assumption.
  apply (run_literal (c :: t)).
Qed.

Lemma run_literal_inv t p s :
  run (literal t ++ p) s = Some [] ->
  exists s', s = t ++ s' /\ run p s' = Some [].
Proof.
  revert s; induction t as [|c t IH]; intros s H; [eauto|].
  destruct s as [|x s]; simpl in H.
  - discriminate.
  - destruct (x =? c)%N eqn:E; [|discriminate].
    apply N.eqb_eq in E as ->.
    destruct (IH s H) as (s' & -> & Hs'). eauto.
Qed.

Lemma run_star_inv c p s :
  isspace c = false ->
  run (SpaceStar :: Chr c :: p) s = Some [] ->
  exists w s', s = w ++ s' /\ all_space w /\ run (Chr c :: p) s' = Some [].
Proof.
  intros Hc. induction s as [|x s IH]; [discriminate|].
  destruct (isspace x) eqn:Hx.
  - cbn [run]. rewrite step_space by assumption. intros H.
    destruct (IH H) as (w & s' & -> & Hw & Hs').
    exists (x :: w), s'. repeat split; auto. now constructor.
  - rewrite run_star_skip by assumption. intros H.
    exists [], (x :: s). repeat split; auto. constructor.
Qed.

Lemma run_end_pattern_iff s :
  run end_pattern_re s = Some [] <-> closing_sequence s.
Proof.
  unfold end_pattern_re, closing_sequence. split.
  - intros H.
    apply run_literal_inv in H as (s1 & -> & H).
    apply run_star_inv in H as (w1 & s2 & -> & Hw1 & H); [|reflexivity].
    apply (run_literal_inv closing_div) in H as (s3 & -> & H).
    apply run_star_inv in H as (w2 & s4 & -> & Hw2 & H); [|reflexivity].
    apply (run_literal_inv closing_body []) in H as (r & -> & _).
    exists w1, w2, r. auto.
  - intros (w1 & w2 & r & -> & Hw1 & Hw2).
    rewrite run_literal.
    rewrite (run_star_literal c_lt (lit "/div>")) by (auto; reflexivity).
    rewrite (run_star_literal c_lt (lit "/body>") []) by (auto; reflexivity).
    apply run_nil_pattern.
Qed.

Lemma run_content_end_iff s :
  run content_end_re s = Some []
  <-> exists w s', s = w ++ s' /\ all_space w /\ closing_sequence s'.
Proof.
  unfold content_end_re. split.
  - intros H. apply run_star_inv in H as (w & s' & -> & Hw & H); [|reflexivity].
    exists w, s'. repeat split; auto. now apply run_end_pattern_iff.
  - intros (w & s' & -> & Hw & H). apply run_end_pattern_iff in H.
    destruct (run_literal_inv closing_div _ _ H) as (s1 & -> & _).
    rewrite run_app, run_space by assumption.
    change (run (SpaceStar :: end_pattern_re) (c_lt :: lit "/div>" ++ s1) = Some []).
    rewrite run_star_skip by reflexivity. exact H.
Qed.

(** ** The states of the derivative *)

Lemma regex_eqb_eq p q : regex_eqb p q = true -> p = q.
Proof.
  revert q; induction p as [|a p IH]; intros [|b q]; simpl; try discriminate; auto.
  intros [Hab Hpq]%andb_true_iff. f_equal; auto.
  destruct a, b; simpl in Hab; try discriminate; auto.
  now apply N.eqb_eq in Hab as ->.
Qed.

Lemma after_chr_unambiguous p q :
  unambiguous p = true -> In q (after_chr p) -> unambiguous q = true.
Proof.
  induction p as [|[c|] p IH]; simpl; intros Hp Hq.
  - contradiction.
  - destruct Hq as [<-|Hq]; auto.
  - destruct p as [|[c|] p]; try discriminate.
    apply andb_true_iff in Hp as [_ Hp]. auto.
Qed.

Lemma after_chr_trans p q r :
  In q (after_chr p) -> In r (after_chr q) -> In r (after_chr p).
Proof.
  induction p as [|[c|] p IH]; simpl; intros Hq Hr.
  - contradiction.
  - destruct Hq as [<-|Hq]; auto.
  - auto.
Qed.

Lemma step_after_chr p c q :
  unambiguous p = true -> step p c = Some q -> q = p \/ In q (after_chr p).
Proof.
  induction p as [|[x|] p IH]; simpl; intros Hp H.
  - injection H as <-. auto.
  - destruct (c =? x)%N; [|discriminate]. injection H as <-. auto.
  - destruct p as [|[x|] p]; try discriminate.
    apply andb_true_iff in Hp as [_ Hp].
    destruct (isspace c); [injection H as <-; auto|].
    right. simpl in H. destruct (c =? x)%N; [|discriminate].
    injection H as <-. simpl. auto.
Qed.

Lemma run_states p s q :
  unambiguous p = true -> run p s = Some q -> In q (states p).
Proof.
  revert p; induction s as [|c s IH]; intros p Hp; simpl.
  - intros [= <-]. now left.
  - destruct (step p c) as [p'|] eqn:E; [|discriminate].
    intros H. destruct (step_after_chr p c p' Hp E) as [->|Hin].
    + now apply IH.
    + apply IH in H; [|eapply after_chr_unambiguous; eauto].
      right. destruct H as [<-|H]; auto. eapply after_chr_trans; eauto.
Qed.

Lemma step_length p c q : step p c = Some q -> length q <= length p.
Proof.
  revert q; induction p as [|[x|] p IH]; simpl; intros q H.
  - injection H as <-. auto.
  - destruct (c =? x)%N; [|discriminate]. injection H as <-. simpl; lia.
  - destruct (isspace c); [injection H as <-; auto|].
    apply IH in H. simpl; lia.
Qed.

Lemma run_length p s q : run p s = Some q -> length q <= length p.
Proof.
  revert p; induction s as [|c s IH]; intros p; simpl.
  - intros [= <-]. auto.
  - destruct (step p c) as [p'|] eqn:E; [|discriminate].
    intros H%IH. apply step_length in E. lia.
Qed.

Lemma run_finished_app p a b : run p a = Some [] -> run p (a ++ b) = Some [].
Proof. intros H. rewrite run_app, H. apply run_nil_pattern. Qed.

Lemma run_none_app p a b : run p a = None -> run p (a ++ b) = None.
Proof. intros H. now rewrite run_app, H. Qed.

(** While it has read only whitespace, the matcher is where it began. *)
Lemma run_fresh_all_space c p s :
  isspace c = false ->
  run (SpaceStar :: Chr c :: p) s = Some (SpaceStar :: Chr c :: p) -> all_space s.
Proof.
  intros Hc. induction s as [|x s IH]; [constructor|].
  destruct (isspace x) eqn:Hx.
  - cbn [run]. rewrite step_space by assumption. intros H.
    unfold all_space. constructor; [exact Hx | exact (IH H)].
  - rewrite run_star_skip by assumption. cbn [run step].
    destruct (x =? c)%N; [|discriminate].
    intros H%run_length. simpl in H. lia.
Qed.

Lemma content_end_re_unambiguous : unambiguous content_end_re = true.
Proof. reflexivity. Qed.

Lemma kills_spec l q r :
  kills l = true -> In q (states content_end_re) -> q <> [] -> run q (l ++ r) = None.
Proof.
  unfold kills. rewrite forallb_forall. intros H Hq Hne.
  specialize (H q Hq). apply run_none_app.
  destruct q; [congruence|]. simpl in H. now destruct (run _ l).
Qed.

(** A match that has not ended before a killing text never ends. *)
Lemma kills_run l y r :
  kills l = true ->
  run content_end_re y <> Some [] -> run content_end_re (y ++ l ++ r) <> Some [].
Proof.
  intros Hl Hy. rewrite run_app.
  destruct (run content_end_re y) as [q|] eqn:E; [|discriminate].
  assert (q <> []) as Hq by (intros ->; now apply Hy).
  assert (In q (states content_end_re)) as Hin
    by (eapply run_states; eauto using content_end_re_unambiguous).
  change (run q (l ++ r) <> Some []).
  rewrite (kills_spec l q r Hl Hin Hq). discriminate.
Qed.

(** ** Regions without a match *)

Lemma clear_nil r : clear [] r.
Proof. intros i Hi. simpl in Hi. lia. Qed.

Lemma clear_app x y r : clear x (y ++ r) -> clear y r -> clear (x ++ y) r.
Proof.
  intros Hx Hy i Hi. rewrite length_app in Hi.
  destruct (decide (i < length x)) as [Hlt|Hge].
  - rewrite drop_app_le by lia. rewrite <- app_assoc. now apply Hx.
  - rewrite drop_app_ge by lia. apply Hy. lia.
Qed.

Lemma clear_exits allowed l r :
  exits allowed l = true ->
  (forall q, In q allowed -> run q r <> Some []) ->
  clear l r.
Proof.
  unfold exits. rewrite forallb_forall. intros H Hallowed i Hi.
  specialize (H i). rewrite in_seq in H. specialize (H ltac:(lia)).
  rewrite run_app. destruct (run content_end_re (drop i l)) as [q|]; [|discriminate].
  simpl. apply existsb_exists in H as (q' & Hq' & ->%regex_eqb_eq). auto.
Qed.

Lemma clear_dead l r : exits [] l = true -> clear l r.
Proof. intros H. apply (clear_exits [] l r H). intros q []. Qed.

Lemma clear_fresh l r : exits [content_end_re] l = true -> blocked r -> clear l r.
Proof.
  intros H Hr. apply (clear_exits _ l r H). intros q [<-|[]]. exact Hr.
Qed.

Lemma clear_open l r :
  exits [after_one_div; after_two_divs] l = true -> sealed r -> clear l r.
Proof.
  intros H [H1 H2]. apply (clear_exits _ l r H). intros q [<-|[<-|[]]]; auto.
Qed.

(** A text that holds no match, before a killing text. *)
Lemma clear_before_kills x l r :
  (forall i, run content_end_re (drop i x) <> Some []) ->
  kills l = true ->
  clear x (l ++ r) /\ blocked (x ++ l ++ r).
Proof.
  intros Hx Hl. split.
  - intros i _. now apply kills_run.
  - apply kills_run; auto. apply (Hx 0).
Qed.

Lemma blocked_kills l r : kills l = true -> blocked (l ++ r).
Proof.
  intros Hl. unfold blocked. rewrite (kills_spec l content_end_re r Hl).
  - discriminate.
  - now left.
  - discriminate.
Qed.

Lemma sealed_kills l r : kills l = true -> sealed (l ++ r).
Proof.
  intros Hl. split.
  - rewrite (kills_spec l after_one_div r Hl); [discriminate| |discriminate].
    vm_compute. tauto.
  - rewrite (kills_spec l after_two_divs r Hl); [discriminate| |discriminate].
    vm_compute. tauto.
Qed.

Lemma sealed_newline r : sealed r -> sealed (c_nl :: r).
Proof. intros [H1 H2]. split; exact H1 || exact H2. Qed.

(** ** Escaping *)

Lemma replace_char a new s :
  replace_from [a] new s 0 = flat_map (fun c => if (c =? a)%N then new else [c]) s.
Proof.
  induction s as [|c s IH]; [reflexivity|].
  cbn [replace_from starts_with flat_map]. rewrite andb_true_r, (N.eqb_sym a c).
  destruct (c =? a)%N; simpl; now rewrite IH.
Qed.

Lemma flat_map_compose {A B C} (f : A -> list B) (g : B -> list C) l :
  flat_map g (flat_map f l) = flat_map (fun x => flat_map g (f x)) l.
Proof.
  induction l as [|x l IH]; simpl; [reflexivity|].
  now rewrite flat_map_app, IH.
Qed.

(** The three replacements, one after the other, put each character's
    entity in its place. *)
Lemma replace_chain_escaped t :
  str_replace
    (str_replace (str_replace t (lit "&") (lit "&amp;")) (lit "<") (lit "&lt;"))
    (lit ">") (lit "&gt;")
  = escaped t.
Proof.
  unfold str_replace, escaped. cbn [lit list_ascii_of_string map].
  rewrite !replace_char, !flat_map_compose.
  apply flat_map_ext. intros c. unfold entity, c_amp, c_lt, c_gt.
  change (N_of_ascii "&") with 38%N. change (N_of_ascii "<") with 60%N.
  change (N_of_ascii ">") with 62%N.
  destruct (c =? 38)%N eqn:E1; [reflexivity|].
  cbn [flat_map app]. destruct (c =? 60)%N eqn:E2; [reflexivity|].
  cbn [flat_map app]. now destruct (c =? 62)%N.
Qed.

Lemma generate_video_section_html_parts v :
  generate_video_section_html v
  = section_before_title ++ escaped (title v) ++ section_before_date
    ++ format_date (upload_date v) ++ section_before_url ++ url v
    ++ section_after_url.
Proof. unfold generate_video_section_html. now rewrite replace_chain_escaped. Qed.

(** ** Texts without [<] *)

Lemma lacks_spec c s : lacks c s = true <-> ~ In c s.
Proof.
  unfold lacks. rewrite forallb_forall. split.
  - intros H Hin. specialize (H c Hin). now rewrite N.eqb_refl in H.
  - intros H x Hx. apply negb_true_iff, N.eqb_neq. intros ->. contradiction.
Qed.

Lemma lacks_app c a b : lacks c (a ++ b) = lacks c a && lacks c b.
Proof. apply forallb_app. Qed.

Lemma escaped_lacks_lt t : lacks c_lt (escaped t) = true.
Proof.
  induction t as [|c t IH]; [reflexivity|].
  unfold escaped in *. cbn [flat_map]. rewrite lacks_app, IH, andb_true_r.
  unfold entity. destruct (c =? c_amp)%N; [reflexivity|].
  destruct (c =? c_lt)%N eqn:E; [reflexivity|].
  destruct (c =? c_gt)%N; [reflexivity|].
  simpl. now rewrite E.
Qed.

Lemma escaped_lacks_gt t : lacks c_gt (escaped t) = true.
Proof.
  induction t as [|c t IH]; [reflexivity|].
  unfold escaped in *. cbn [flat_map]. rewrite lacks_app, IH, andb_true_r.
  unfold entity. destruct (c =? c_amp)%N; [reflexivity|].
  destruct (c =? c_lt)%N; [reflexivity|].
  destruct (c =? c_gt)%N eqn:E; [reflexivity|].
  simpl. now rewrite E.
Qed.

Lemma digit_char_lacks_lt n : (digit_char (n mod 10) =? c_lt)%N = false.
Proof.
  apply N.eqb_neq. unfold digit_char, c_lt.
  pose proof (Z.mod_pos_bound n 10 ltac:(lia)). lia.
Qed.

Lemma month_name_lacks_lt m : lacks c_lt (month_name m) = true.
Proof.
  unfold month_name. generalize (Z.to_nat (m - 1)). intros n.
  do 13 (destruct n as [|n]; [reflexivity|]). reflexivity.
Qed.

Lemma format_date_lacks_lt u : lacks c_lt (format_date u) = true.
Proof.
  unfold format_date.
  destruct (bool_decide (u = []) || negb (length u =? 8)); [reflexivity|].
  destruct (strptime_Ymd u) as [d|]; [|reflexivity].
  unfold strftime_BdY. rewrite !lacks_app, month_name_lacks_lt.
  unfold two_digits, strftime_Y, four_digits.
  repeat destruct (_ <? _)%Z; simpl; now rewrite !digit_char_lacks_lt.
Qed.

Lemma In_drop {A} (x : A) i l : In x (drop i l) -> In x l.
Proof.
  intros H. rewrite <- (take_drop i l). apply in_or_app. now right.
Qed.

(** A match of the closing pattern needs a [<]. *)
Lemma lacks_lt_no_match s i :
  lacks c_lt s = true -> run content_end_re (drop i s) <> Some [].
Proof.
  intros Hs H. apply lacks_spec in Hs. apply Hs, (In_drop _ i).
  apply run_content_end_iff in H as (w & s' & -> & _ & (w1 & w2 & r & -> & _)).
  apply in_or_app. right. now left.
Qed.

Lemma no_closing_no_match s i :
  ~ contains_closing s -> run content_end_re (drop i s) <> Some [].
Proof.
  intros Hs H. apply Hs.
  destruct (decide (i <= length s)) as [Hi|Hi].
  - apply run_content_end_iff in H as (w & s' & E & _ & Hc).
    exists (i + length w). split.
    + apply (f_equal length) in E. rewrite length_drop, length_app in E. lia.
    + rewrite <- drop_drop, E, drop_app_length. exact Hc.
  - rewrite drop_ge in H by lia. discriminate.
Qed.

(** ** Sorting *)

Lemma insert_desc_perm {A} (key : A -> text) x l :
  Permutation (insert_desc key x l) (x :: l).
Proof.
  induction l as [|y l IH]; simpl; [reflexivity|].
  destruct (text_ltb (key x) (key y)); [|reflexivity].
  rewrite IH. apply perm_swap.
Qed.

Lemma sorted_desc_perm {A} (key : A -> text) l :
  Permutation (sorted_desc key l) l.
Proof.
  induction l as [|x l IH]; simpl; [reflexivity|].
  now rewrite insert_desc_perm, IH.
Qed.

(** ** No match begins in the generated content *)

Ltac split_clear x := apply (clear_app x); [rewrite <- ?app_assoc|].

Lemma clear_section v r :
  ~ contains_closing (url v) -> sealed r ->
  clear (generate_video_section_html v) r.
Proof.
  intros Hu Hr. rewrite generate_video_section_html_parts.
  assert (forall i, run content_end_re (drop i (escaped (title v))) <> Some [])
    as Ht by (intros i; apply lacks_lt_no_match, escaped_lacks_lt).
  assert (forall i, run content_end_re (drop i (format_date (upload_date v))) <> Some [])
    as Hd by (intros i; apply lacks_lt_no_match, format_date_lacks_lt).
  assert (forall i, run content_end_re (drop i (url v)) <> Some [])
    as Hv by (intros i; now apply no_closing_no_match).
  split_clear section_before_title.
  { apply clear_fresh; [reflexivity|].
    apply (clear_before_kills (escaped (title v)) section_before_date);
      [assumption | reflexivity]. }
  split_clear (escaped (title v)).
  { apply (clear_before_kills (escaped (title v)) section_before_date);
      [assumption | reflexivity]. }
  split_clear section_before_date.
  { apply clear_fresh; [reflexivity|].
    apply (clear_before_kills (format_date (upload_date v)) section_before_url);
      [assumption | reflexivity]. }
  split_clear (format_date (upload_date v)).
  { apply (clear_before_kills (format_date (upload_date v)) section_before_url);
      [assumption | reflexivity]. }
  split_clear section_before_url.
  { apply clear_fresh; [reflexivity|].
    apply (clear_before_kills (url v) section_after_url);
      [assumption | reflexivity]. }
  split_clear (url v).
  { apply (clear_before_kills (url v) section_after_url);
      [assumption | reflexivity]. }
  now apply clear_open.
Qed.

Lemma str_join_sections_head v vs :
  exists rest,
    str_join [c_nl] (map generate_video_section_html (v :: vs))
    = section_before_title ++ rest.
Proof.
  destruct vs as [|v' vs]; cbn [map str_join];
    rewrite generate_video_section_html_parts, <- ?app_assoc; eauto.
Qed.

Lemma clear_sections vs r :
  Forall (fun v => ~ contains_closing (url v)) vs -> sealed r ->
  clear (str_join [c_nl] (map generate_video_section_html vs)) r.
Proof.
  intros Hvs Hr. induction Hvs as [|v vs Hv Hvs IH]; [apply clear_nil|].
  destruct vs as [|v' vs]; [now apply clear_section|].
  change (str_join [c_nl] (map generate_video_section_html (v :: v' :: vs)))
    with (generate_video_section_html v
          ++ [c_nl] ++ str_join [c_nl] (map generate_video_section_html (v' :: vs))).
  destruct (str_join_sections_head v' vs) as [rest Hrest].
  split_clear (generate_video_section_html v).
  { apply clear_section; [assumption|].
    rewrite Hrest, <- app_assoc. apply sealed_newline, sealed_kills. reflexivity. }
  split_clear [c_nl].
  { apply clear_fresh; [reflexivity|].
    rewrite Hrest, <- app_assoc. apply blocked_kills. reflexivity. }
  exact IH.
Qed.

Lemma run_after_two_divs_div w x :
  all_space w -> run after_two_divs (w ++ closing_div ++ x) = None.
Proof.
  intros Hw. unfold after_two_divs. now rewrite run_app, run_space.
Qed.

Lemma run_after_one_div_divs w w1 x :
  all_space w -> all_space w1 ->
  run after_one_div (w ++ closing_div ++ w1 ++ closing_div ++ x) = None.
Proof.
  intros Hw Hw1. unfold after_one_div.
  rewrite (run_star_literal c_lt (lit "/div>")) by (auto; reflexivity).
  now apply run_after_two_divs_div.
Qed.

(** What begins with a match of the closing pattern cannot end a match
    that has already read a [</div>]. *)
Lemma match_sealed footer :
  run content_end_re footer = Some [] -> sealed footer.
Proof.
  intros (w & s' & -> & Hw & (w1 & w2 & r & -> & Hw1 & Hw2))%run_content_end_iff.
  split.
  - now rewrite run_after_one_div_divs.
  - now rewrite run_after_two_divs_div.
Qed.

Lemma wrapper_close_spaces :
  exists w, all_space w /\ wrapper_close = w ++ closing_div.
Proof.
  exists ([c_nl] ++ lit "        "). split; [|reflexivity].
  unfold all_space. repeat constructor.
Qed.

Lemma wrapper_close_match_sealed footer :
  run content_end_re footer = Some [] ->
  sealed (wrapper_close ++ footer) /\ blocked (wrapper_close ++ footer).
Proof.
  intros Hf. destruct (match_sealed footer Hf) as [H1 H2].
  destruct wrapper_close_spaces as (w & Hw & ->). rewrite <- !app_assoc.
  repeat split.
  - unfold after_one_div.
    now rewrite (run_star_literal c_lt (lit "/div>")) by (auto; reflexivity).
  - now rewrite run_after_two_divs_div.
  - unfold blocked, content_end_re, end_pattern_re.
    now rewrite (run_star_literal c_lt (lit "/div>")) by (auto; reflexivity).
Qed.

Lemma content_html_parts videos :
  content_html videos
  = wrapper_open ++ str_join [c_nl] (video_sections videos) ++ wrapper_close.
Proof. unfold content_html, wrapper_open. now rewrite <- !app_assoc. Qed.

Lemma clear_content_html videos footer :
  Forall (fun v => ~ contains_closing (url v)) videos ->
  run content_end_re footer = Some [] ->
  clear (content_html videos) footer /\ blocked (content_html videos ++ footer).
Proof.
  intros Hvs Hf. rewrite content_html_parts.
  destruct (wrapper_close_match_sealed footer Hf) as [Hsealed Hblocked].
  assert (blocked (str_join [c_nl] (video_sections videos) ++ wrapper_close ++ footer))
    as Hb.
  { unfold video_sections. destruct (videos_sorted videos) as [|v vs]; [exact Hblocked|].
    destruct (str_join_sections_head v vs) as [rest ->].
    rewrite <- app_assoc. apply blocked_kills. reflexivity. }
  split.
  - split_clear wrapper_open.
    { apply clear_fresh; [reflexivity | exact Hb]. }
    split_clear (str_join [c_nl] (video_sections videos)).
    { apply clear_sections; [|exact Hsealed].
      eapply Permutation_Forall; [|exact Hvs].
      symmetry. apply sorted_desc_perm. }
    apply clear_open; [reflexivity|]. now apply match_sealed.
  - rewrite <- !app_assoc. apply blocked_kills. reflexivity.
Qed.

(** ** The splitter *)

Lemma end_pattern_re_unambiguous : unambiguous end_pattern_re = true.
Proof. reflexivity. Qed.

Lemma content_start_re_unambiguous : unambiguous content_start_re = true.
Proof. reflexivity. Qed.

Lemma closing_at_run s j :
  closing_at s j <-> j <= length s /\ run end_pattern_re (drop j s) = Some [].
Proof. unfold closing_at. now rewrite run_end_pattern_iff. Qed.

Lemma closing_sequence_match s :
  closing_sequence s -> run content_end_re s = Some [].
Proof.
  intros H. apply run_content_end_iff. exists [], s. repeat split; auto. constructor.
Qed.

Lemma closing_sequence_head s :
  closing_sequence s -> exists s', s = c_lt :: s'.
Proof. intros (w1 & w2 & r & -> & _). eexists. reflexivity. Qed.

(** The fallback's pattern is found exactly when the primary one is. *)
Lemma end_pattern_none_iff content :
  re_search end_pattern_re content = None
  <-> re_search content_end_re content = None.
Proof.
  rewrite (re_search_none _ end_pattern_re_unambiguous),
    (re_search_none _ content_end_re_unambiguous).
  split; intros H j Hj.
  - apply run_content_end_iff in Hj as (w & s' & E & _ & Hc).
    apply (H (j + length w)).
    rewrite <- drop_drop, E, drop_app_length. now apply run_end_pattern_iff.
  - apply (H j). now apply closing_sequence_match, run_end_pattern_iff.
Qed.

Lemma str_find_search content :
  str_find content content_tag
  = match re_search content_start_re content with
    | Some m => Z.of_nat (m_start m)
    | None => (-1)%Z
    end.
Proof. apply (find_from_search content_tag content 0). Qed.

Lemma read_existing_html_primary w p content ms me :
  files w !! p = Some content ->
  re_search content_start_re content = Some ms ->
  re_search content_end_re content = Some me ->
  read_existing_html p w
  = Returned (take (m_end ms) content, drop (m_start me) content) w.
Proof.
  intros Hf Hs He. unfold read_existing_html, mbind, M_bind, bind, read_file.
  now rewrite Hf, Hs, He.
Qed.

Lemma read_existing_html_last_resort w p content :
  files w !! p = Some content ->
  re_search content_start_re content = None
  \/ re_search content_end_re content = None ->
  read_existing_html p w = last_resort content w.
Proof.
  intros Hf H. unfold read_existing_html, mbind, M_bind, bind, read_file.
  rewrite Hf, str_find_search.
  destruct (re_search content_start_re content) as [ms|] eqn:Hs.
  - destruct H as [H|H]; [discriminate|]. rewrite H.
    apply end_pattern_none_iff in H. rewrite H.
    now destruct (negb _).
  - reflexivity.
Qed.

(** Where the opening tag is first found. *)
Lemma search_start_first content i :
  first_occurrence content_tag content i ->
  re_search content_start_re content
  = Some (ReMatch i (i + length content_tag)).
Proof. apply re_search_literal_first. Qed.

(** Where the closing pattern is first found: at the whitespace before the
    first closing sequence. *)
Lemma search_end_first pre ws rest :
  first_closing (pre ++ ws ++ rest) (length (pre ++ ws)) ->
  all_space ws -> no_trailing_space pre ->
  exists e, re_search content_end_re (pre ++ ws ++ rest)
            = Some (ReMatch (length pre) e).
Proof.
  intros [[_ Hc] Hfirst] Hws Hpre.
  rewrite app_assoc, drop_app_length in Hc.
  apply (re_search_first _ content_end_re_unambiguous).
  - rewrite length_app. lia.
  - rewrite drop_app_length. apply run_content_end_iff. eauto.
  - intros j Hj Hm.
    apply run_content_end_iff in Hm as (w' & s' & E & Hw' & Hs').
    rewrite drop_app_le in E by lia.
    assert (length (pre ++ ws) <= j + length w') as Hle.
    { destruct (decide (length (pre ++ ws) <= j + length w')); [assumption|].
      exfalso. apply (Hfirst (j + length w')); [lia|]. split.
      - rewrite !length_app in *. lia.
      - rewrite <- drop_drop, drop_app_le by lia. rewrite E, drop_app_length.
        exact Hs'. }
    assert (drop j pre = take (length (drop j pre)) w') as Hpref.
    { pose proof (f_equal (take (length (drop j pre))) E) as E2.
      rewrite take_app_length in E2.
      rewrite take_app_le in E2; [exact E2|].
      rewrite length_drop, length_app in *. lia. }
    assert (all_space (drop j pre)) as Hsp.
    { rewrite Hpref. now apply Forall_take. }
    destruct (last pre) as [c|] eqn:Hlast.
    + specialize (Hpre c Hlast).
      assert (last (drop j pre) = Some c) as Hl.
      { rewrite <- (take_drop j pre) in Hlast. rewrite last_app in Hlast.
        destruct (last (drop j pre)) eqn:E'; [congruence|].
        apply last_None in E'. apply (f_equal length) in E'.
        rewrite length_drop in E'. simpl in E'. lia. }
      apply last_Some in Hl as [l' Hl]. rewrite Hl in Hsp.
      apply Forall_app in Hsp as [_ Hsp]. inversion Hsp; subst. congruence.
    + apply last_None in Hlast. subst. simpl in Hj. lia.
Qed.

Lemma occurs_at_run t s i :
  occurs_at t s i <-> i <= length s /\ run (literal t) (drop i s) = Some [].
Proof.
  unfold occurs_at. split; intros [Hi H]; split; auto.
  - destruct H as [r ->]. rewrite <- (app_nil_r (literal t)), run_literal.
    apply run_nil_pattern.
  - rewrite <- (app_nil_r (literal t)) in H.
    apply run_literal_inv in H as (r & -> & _). eauto.
Qed.

Lemma run_back_to_start c p y :
  run (Chr c :: p) y = Some (Chr c :: p) -> y = [].
Proof.
  destruct y as [|x y]; [reflexivity|]. simpl.
  destruct (x =? c)%N; [|discriminate].
  intros H%run_length. simpl in H. lia.
Qed.

(** The opening tag does not overlap itself: after a text that does not
    contain it, it is found where it stands. *)
Lemma tag_first_after H rest :
  ~ contains content_tag H ->
  first_occurrence content_tag (H ++ content_tag ++ rest) (length H).
Proof.
  intros HH. split.
  - split; [rewrite length_app; lia|]. rewrite drop_app_length. eauto.
  - intros j Hj [_ Hm]%occurs_at_run.
    rewrite drop_app_le, run_app in Hm by lia.
    destruct (run (literal content_tag) (drop j H)) as [q|] eqn:E; [|discriminate].
    change (run q (content_tag ++ rest) = Some []) in Hm.
    assert (forallb (fun q => is_nil q || regex_eqb q content_start_re
                              || is_none (run q content_tag))
              (states content_start_re) = true) as Hcheck by reflexivity.
    rewrite forallb_forall in Hcheck.
    specialize (Hcheck q (run_states _ _ _ content_start_re_unambiguous E)).
    apply orb_true_iff in Hcheck as [[Hq|Hq]%orb_true_iff|Hq].
    + destruct q; [|discriminate]. apply HH. exists j.
      apply occurs_at_run. split; [lia | exact E].
    + apply regex_eqb_eq in Hq as ->.
      apply (run_back_to_start c_lt (tl content_start_re)) in E.
      apply (f_equal length) in E. rewrite length_drop in E. simpl in E. lia.
    + rewrite run_app in Hm. destruct (run q content_tag); discriminate.
Qed.

Lemma contains_closing_iff_search content :
  re_search content_end_re content = None <-> ~ contains_closing content.
Proof.
  rewrite (re_search_none _ content_end_re_unambiguous). split.
  - intros H [j [_ Hc]]. apply (H j). now apply closing_sequence_match.
  - intros H j. now apply no_closing_no_match.
Qed.

(** Before the final closing tags only their own whitespace can begin a
    match. *)
Lemma before_final_closing y :
  run content_end_re y <> Some [] -> ~ all_space y ->
  run content_end_re (y ++ final_closing) <> Some [].
Proof.
  intros Hy Hsp. rewrite run_app.
  destruct (run content_end_re y) as [q|] eqn:E; [|discriminate].
  change (run q final_closing <> Some []).
  assert (forallb (fun q => is_nil q || regex_eqb q content_end_re
                            || is_none (run q final_closing))
            (states content_end_re) = true) as Hcheck by reflexivity.
  rewrite forallb_forall in Hcheck.
  specialize (Hcheck q (run_states _ _ _ content_end_re_unambiguous E)).
  apply orb_true_iff in Hcheck as [[Hq|Hq]%orb_true_iff|Hq].
  - destruct q; [exfalso; now apply Hy | discriminate].
  - apply regex_eqb_eq in Hq as ->. exfalso. apply Hsp.
    now apply (run_fresh_all_space c_lt (tl end_pattern_re)).
  - destruct (run q final_closing); discriminate.
Qed.

Lemma no_trailing_space_drop old i :
  no_trailing_space old -> i < length old -> ~ all_space (drop i old).
Proof.
  intros Hold Hi Hsp.
  destruct (last (drop i old)) as [c|] eqn:Hl.
  - assert (last old = Some c) as Hlast.
    { rewrite <- (take_drop i old), last_app, Hl. reflexivity. }
    apply last_Some in Hl as [l' Hl]. rewrite Hl in Hsp.
    apply Forall_app in Hsp as [_ Hsp]. inversion Hsp; subst.
    specialize (Hold c Hlast). congruence.
  - apply last_None in Hl. apply (f_equal length) in Hl.
    rewrite length_drop in Hl. simpl in Hl. lia.
Qed.

Lemma all_space_head_not_closing c s :
  isspace c = true -> ~ closing_sequence (c :: s).
Proof.
  intros Hc [s' E]%closing_sequence_head. injection E as -> _. discriminate.
Qed.

(** In [H<tag>old ws</div></div></body>] the first closing sequence is the
    final one. *)
Lemma final_closing_first H old ws :
  ~ contains_closing H -> ~ contains_closing (old ++ ws) ->
  all_space ws -> no_trailing_space old ->
  first_closing ((H ++ content_tag ++ old) ++ ws ++ final_closing)
                (length ((H ++ content_tag ++ old) ++ ws)).
Proof.
  intros HH Hold Hws Hnt. split.
  - split; [rewrite !length_app; lia|].
    rewrite (app_assoc (H ++ content_tag ++ old) ws final_closing), drop_app_length.
    exists [], [], []. repeat split; constructor.
  - intros j Hj [_ Hc].
    destruct (decide (j < length (H ++ content_tag ++ old))) as [Hlt|Hge].
    + apply closing_sequence_match in Hc. revert Hc.
      rewrite drop_app_le by lia.
      clear Hj. revert j Hlt. change (clear (H ++ content_tag ++ old) (ws ++ final_closing)).
      split_clear H.
      { apply (clear_before_kills H content_tag); [|reflexivity].
        intros i. now apply no_closing_no_match. }
      split_clear content_tag.
      { now apply clear_dead. }
      intros i Hi. rewrite app_assoc. apply before_final_closing.
      * rewrite <- drop_app_le by lia. now apply no_closing_no_match.
      * rewrite all_space_app. intros [Hsp _].
        now apply (no_trailing_space_drop old i).
    + rewrite length_app in Hj.
      rewrite drop_app_ge in Hc by lia.
      rewrite drop_app_le in Hc by lia.
      destruct (drop (j - length (H ++ content_tag ++ old)) ws) as [|c s] eqn:E.
      * apply (f_equal length) in E. rewrite length_drop in E.
        cbn [length] in E. lia.
      * apply (all_space_head_not_closing c (s ++ final_closing)); [|exact Hc].
        assert (all_space (c :: s)) as Hcs by (rewrite <- E; now apply Forall_drop).
        now inversion Hcs.
Qed.

Lemma splitter_boundaries_general w p i pre ws rest :
  files w !! p = Some (pre ++ ws ++ rest) ->
  first_occurrence content_tag (pre ++ ws ++ rest) i ->
  first_closing (pre ++ ws ++ rest) (length (pre ++ ws)) ->
  all_space ws -> no_trailing_space pre ->
  read_existing_html p w
  = Returned (take (i + length content_tag) (pre ++ ws ++ rest), ws ++ rest) w.
Proof.
  intros Hf Hstart Hend Hws Hpre.
  destruct (search_end_first pre ws rest Hend Hws Hpre) as [e He].
  rewrite (read_existing_html_primary w p _ _ _ Hf (search_start_first _ i Hstart) He).
  cbn [m_start m_end]. now rewrite drop_app_length.
Qed.

Lemma no_trailing_space_after_tag H old :
  no_trailing_space old -> no_trailing_space (H ++ content_tag ++ old).
Proof.
  intros Hold c. rewrite !last_app.
  destruct (last old) as [c'|] eqn:E.
  - intros [= <-]. now apply Hold.
  - intros [= <-]. reflexivity.
Qed.

(** Decision procedures for the hypotheses on concrete texts. *)
Lemma contains_check t s :
  forallb (fun i => negb (starts_with t (drop i s))) (seq 0 (S (length s))) = true ->
  ~ contains t s.
Proof.
  rewrite forallb_forall. intros H [i [Hi Hocc%starts_with_spec]].
  specialize (H i). rewrite in_seq in H. specialize (H ltac:(lia)).
  now rewrite Hocc in H.
Qed.

Lemma contains_closing_check s :
  forallb (fun j => negb (finished (run end_pattern_re (drop j s))))
    (seq 0 (S (length s))) = true ->
  ~ contains_closing s.
Proof.
  rewrite forallb_forall. intros H [j [Hj Hc%run_end_pattern_iff]].
  specialize (H j). rewrite in_seq in H. specialize (H ltac:(lia)).
  now rewrite Hc in H.
Qed.

(** Where the primary strategy cuts, said with the words of the
    specification: every document that contains the opening tag and the
    closing sequence has a first opening tag, and a first closing sequence
    with a run of whitespace before it that nothing extends to the left. *)
Lemma primary_boundaries_exist content :
  contains content_tag content -> contains_closing content ->
  exists i pre ws rest ms me,
    first_occurrence content_tag content i
    /\ content = pre ++ ws ++ rest
    /\ first_closing content (length (pre ++ ws))
    /\ all_space ws /\ no_trailing_space pre
    /\ re_search content_start_re content = Some ms /\ m_end ms = i + length content_tag
    /\ re_search content_end_re content = Some me /\ m_start me = length pre.
Proof.
  intros Htag Hclose.
  destruct (re_search content_start_re content) as [ms|] eqn:Hs;
    [|now apply re_search_literal_none in Hs].
  destruct (re_search content_end_re content) as [me|] eqn:He;
    [|now apply contains_closing_iff_search in He].
  destruct (re_search_literal_some _ _ _ Hs) as [Hfirst Hend].
  destruct (re_search_some _ content_end_re_unambiguous _ _ He) as (Hm & Hrun & Hno).
  apply run_content_end_iff in Hrun as (ws & rest & E & Hws & Hrest).
  set (m := m_start me) in *.
  assert (length (take m content) = m) as Hlen by (rewrite length_take; lia).
  assert (content = take m content ++ ws ++ rest) as Hc
    by now rewrite <- E, take_drop.
  exists (m_start ms), (take m content), ws, rest, ms, me.
  split; [exact Hfirst|]. split; [exact Hc|].
  split; [|split; [exact Hws|split; [|auto]]].
  - rewrite length_app, Hlen. split.
    + split; [rewrite Hc, !length_app; lia|].
      now rewrite <- drop_drop, E, drop_app_length.
    + intros j Hj [_ Hcj].
      destruct (decide (j < m)) as [Hlt|Hge].
      * apply (Hno j Hlt). now apply closing_sequence_match.
      * replace j with (m + (j - m)) in Hcj by lia.
        rewrite <- drop_drop, E, drop_app_le in Hcj by lia.
        destruct (drop (j - m) ws) as [|c s] eqn:Ed.
        -- apply (f_equal length) in Ed. rewrite length_drop in Ed.
           cbn [length] in Ed. lia.
        -- apply (all_space_head_not_closing c (s ++ rest)); [|exact Hcj].
           assert (all_space (c :: s)) as Hcs by (rewrite <- Ed; now apply Forall_drop).
           now inversion Hcs.
  - intros c Hlast. destruct (isspace c) eqn:Hsp; [exfalso|reflexivity].
    apply last_Some in Hlast as [l' Hl'].
    assert (m = S (length l')) as Hm'.
    { rewrite <- Hlen, Hl', length_app. simpl. lia. }
    apply (Hno (length l')); [lia|].
    assert (drop (length l') content = c :: ws ++ rest) as ->.
    { rewrite Hc at 1. rewrite Hl', <- app_assoc. now rewrite drop_app_length. }
    apply run_content_end_iff. exists (c :: ws), rest.
    repeat split; auto. now constructor.
Qed.

(** ** Splitting the assembled document again *)

Lemma occurs_at_prefix t s x j :
  j + length t <= length s -> (occurs_at t (s ++ x) j <-> occurs_at t s j).
Proof.
  intros Hj. rewrite !occurs_at_starts_with, !starts_with_spec, length_app.
  rewrite drop_app_le by lia. split; intros [_ [r Hr]]; (split; [lia|]).
  - pose proof (f_equal (take (length t)) Hr) as E.
    rewrite take_app_le in E by (rewrite length_drop; lia).
    rewrite take_app_length in E.
    exists (drop (length t) (drop j s)). now rewrite <- E at 1; rewrite take_drop.
  - exists (r ++ x). now rewrite Hr, <- app_assoc.
Qed.

Lemma first_occurrence_prefix t s x i :
  i + length t <= length s ->
  (first_occurrence t (s ++ x) i <-> first_occurrence t s i).
Proof.
  intros Hi. unfold first_occurrence. rewrite occurs_at_prefix by assumption.
  split; intros [Hocc Hfirst]; (split; [assumption|]); intros j Hj Hoccj;
    apply (Hfirst j Hj); [apply occurs_at_prefix | apply occurs_at_prefix in Hoccj];
    auto; lia.
Qed.

(** The primary strategy, with what it found. *)
Lemma primary_split w p content header footer :
  files w !! p = Some content ->
  primary_succeeds content ->
  read_existing_html p w = Returned (header, footer) w ->
  exists i m,
    first_occurrence content_tag content i
    /\ header = take (i + length content_tag) content
    /\ length header = i + length content_tag
    /\ m <= length content
    /\ footer = drop m content
    /\ run content_end_re footer = Some []
    /\ forall j, j < m -> run content_end_re (drop j content) <> Some [].
Proof.
  intros Hf [[ms Hs] [me He]] Hr.
  rewrite (read_existing_html_primary w p content ms me Hf Hs He) in Hr.
  injection Hr as <- <-.
  destruct (re_search_literal_some _ _ _ Hs) as [Hfirst Hend].
  destruct (re_search_some _ content_end_re_unambiguous _ _ He) as (Hm & Hrun & Hno).
  exists (m_start ms), (m_start me).
  assert (m_start ms + length content_tag <= length content) as Hle.
  { destruct Hfirst as [[Hi [r Hr]] _].
    apply (f_equal length) in Hr. rewrite length_drop, length_app in Hr. lia. }
  rewrite Hend.
  split; [exact Hfirst|]. split; [reflexivity|].
  split; [rewrite length_take; lia|]. split; [exact Hm|].
  split; [reflexivity|]. split; [exact Hrun | exact Hno].
Qed.

(** The header of the assembled document is the header it was assembled
    from. *)
Lemma resplit_start content i x :
  first_occurrence content_tag content i ->
  re_search content_start_re (take (i + length content_tag) content ++ x)
  = Some (ReMatch i (i + length content_tag)).
Proof.
  intros Hfirst. apply search_start_first.
  assert (i + length content_tag <= length content) as Hlen.
  { destruct Hfirst as [[Hi [r Hr]] _].
    apply (f_equal length) in Hr. rewrite length_drop, length_app in Hr. lia. }
  apply first_occurrence_prefix; [rewrite length_take; lia|].
  rewrite <- (take_drop (i + length content_tag) content) in Hfirst.
  apply first_occurrence_prefix in Hfirst; [assumption|].
  rewrite length_take; lia.
Qed.

(** No match begins in the header when the first match of the document
    begins after it. *)
Lemma clear_header content i m x :
  first_occurrence content_tag content i ->
  i + length content_tag <= m ->
  (forall j, j < m -> run content_end_re (drop j content) <> Some []) ->
  blocked x ->
  clear (take (i + length content_tag) content) x.
Proof.
  intros [[Hi [r Hr]] _] Hm Hno Hx.
  assert (content = take i content ++ content_tag ++ r) as E
    by now rewrite <- Hr, take_drop.
  assert (length (take i content) = i) as Hlen by (rewrite length_take; lia).
  assert (take (i + length content_tag) content = take i content ++ content_tag)
    as ->.
  { rewrite E at 1. rewrite <- Hlen at 1.
    rewrite take_app_add', take_app_length; auto. }
  split_clear (take i content).
  - intros j Hj. apply kills_run; [reflexivity|].
    intros Hfin. apply (Hno j); [lia|].
    rewrite E, drop_app_le by lia. now apply run_finished_app.
  - now apply clear_dead.
Qed.

Lemma resplit_header content i x w2 q :
  first_occurrence content_tag content i ->
  i + length content_tag <= length content ->
  files w2 !! q = Some (take (i + length content_tag) content ++ x) ->
  (exists j, run content_end_re (drop j (take (i + length content_tag) content ++ x))
             = Some []) ->
  exists footer',
    read_existing_html q w2
    = Returned (take (i + length content_tag) content, footer') w2.
Proof.
  intros Hfirst Hlen Hf [j Hj].
  destruct (re_search content_end_re (take (i + length content_tag) content ++ x))
    as [me|] eqn:He.
  - rewrite (read_existing_html_primary w2 q _ _ me Hf (resplit_start _ _ _ Hfirst) He).
    cbn [m_end]. rewrite take_app_length' by (rewrite length_take; lia). eauto.
  - exfalso.
    pose proof (proj1 (re_search_none _ content_end_re_unambiguous _) He) as Hn.
    now apply (Hn j).
Qed.

Lemma resplit_footer content i m videos w2 q :
  first_occurrence content_tag content i ->
  i + length content_tag <= m -> m <= length content ->
  run content_end_re (drop m content) = Some [] ->
  (forall j, j < m -> run content_end_re (drop j content) <> Some []) ->
  Forall (fun v => ~ contains_closing (url v)) videos ->
  files w2 !! q
  = Some (complete_html (take (i + length content_tag) content) (drop m content) videos) ->
  read_existing_html q w2
  = Returned (take (i + length content_tag) content, drop m content) w2.
Proof.
  intros Hfirst Him Hm Hrun Hno Hvs Hf. unfold complete_html in *.
  set (header := take (i + length content_tag) content) in *.
  set (footer := drop m content) in *.
  assert (length header = i + length content_tag) as Hlen
    by (unfold header; rewrite length_take; lia).
  destruct (clear_content_html videos footer Hvs Hrun) as [Hclear Hblocked].
  assert (clear (header ++ content_html videos) footer) as Hall.
  { split_clear header; [|exact Hclear].
    now apply (clear_header content i m). }
  destruct (re_search_first _ content_end_re_unambiguous
              (header ++ content_html videos ++ footer)
              (length (header ++ content_html videos))) as [e He].
  - rewrite !length_app. lia.
  - now rewrite app_assoc, drop_app_length.
  - intros j Hj. rewrite app_assoc, drop_app_le by lia. now apply Hall.
  - rewrite (read_existing_html_primary w2 q _ _ _ Hf (resplit_start _ _ _ Hfirst) He).
    cbn [m_start m_end]. fold header.
    rewrite take_app_length' by (symmetry; exact Hlen).
    now rewrite app_assoc, drop_app_length.
Qed.

(** ** What [generate_html_file] leaves in the world *)

Lemma generate_html_file_preview videos p side w header footer w1 :
  read_existing_html p w = Returned (header, footer) w1 ->
  generate_html_file videos p true (Some side) w
  = Returned tt
      (World (<[side := complete_html header footer videos]> (files w1))
             (stdout w1
              ++ ([c_nl] ++ lit "Complete HTML written to: " ++ lit side)
              :: preview_lines videos)).
Proof.
  intros Hr. unfold generate_html_file, mbind, M_bind, bind. rewrite Hr.
  cbn [write_file print files stdout]. unfold preview_lines, print.
  cbn [files stdout]. do 2 f_equal. now rewrite <- !app_assoc.
Qed.

Lemma generate_html_file_side videos p dry side w header footer w1 :
  read_existing_html p w = Returned (header, footer) w1 ->
  exists w',
    generate_html_file videos p dry (Some side) w = Returned tt w'
    /\ files w' !! side = Some (complete_html header footer videos).
Proof.
  intros Hr. unfold generate_html_file, mbind, M_bind, bind. rewrite Hr.
  destruct dry; cbn [write_file print files stdout]; eexists; (split; [reflexivity|]);
    cbn [files].
  - apply lookup_insert_eq.
  - destruct (decide (p = side)) as [->|Hne].
    + apply lookup_insert_eq.
    + rewrite lookup_insert_ne by assumption. apply lookup_insert_eq.
Qed.

Lemma take_through_tag content i :
  first_occurrence content_tag content i ->
  take (i + length content_tag) content = take i content ++ content_tag.
Proof.
  intros [[Hi [r Hr]] _].
  assert (content = take i content ++ content_tag ++ r) as E
    by now rewrite <- Hr, take_drop.
  assert (length (take i content) = i) as Hlen by (rewrite length_take; lia).
  rewrite E at 1. rewrite <- Hlen at 1.
  rewrite take_app_add', take_app_length; auto.
Qed.

Lemma content_html_nested videos :
  exists rest, content_html videos = lit "        " ++ content_tag ++ rest.
Proof. eexists. unfold content_html. reflexivity. Qed.

Lemma occurs_after a b t r : occurs_at t (a ++ b ++ t ++ r) (length a + length b).
Proof.
  split; [rewrite !length_app; lia|].
  rewrite (app_assoc a b), <- (length_app a b), drop_app_length. eauto.
Qed.

Lemma occurs_here a t r : occurs_at t (a ++ t ++ r) (length a).
Proof. split; [rewrite !length_app; lia|]. rewrite drop_app_length. eauto. Qed.

(** ** Ampersands of an escaped title *)

Lemma entity_ampersand c pre l :
  entity c = pre ++ c_amp :: l ->
  pre = [] /\ (l = lit "amp;" \/ l = lit "lt;" \/ l = lit "gt;").
Proof.
  unfold entity.
  destruct (c =? c_amp)%N eqn:E1; [|destruct (c =? c_lt)%N eqn:E2;
    [|destruct (c =? c_gt)%N eqn:E3]].
  1-3: destruct pre as [|p1 [|p2 [|p3 [|p4 [|p5 pre]]]]]; intros H;
    vm_compute in H; inversion H; subst; auto;
    match goal with H' : [] = _ |- _ => destruct pre; discriminate H' end.
  destruct pre as [|p pre]; intros H.
  - injection H as -> _. rewrite N.eqb_refl in E1. discriminate.
  - destruct pre; discriminate.
Qed.

Lemma escaped_ampersand t pre post :
  escaped t = pre ++ c_amp :: post -> begins_entity_tail post.
Proof.
  revert pre; induction t as [|c t IH]; intros pre H.
  - destruct pre; discriminate.
  - change (escaped (c :: t)) with (entity c ++ escaped t) in H.
    apply app_eq_app in H as [l [[H1 H2]|[H1 H2]]].
    + destruct l as [|x l].
      * simpl in H2. apply (IH []). now rewrite <- H2.
      * injection H2 as <- ->.
        apply entity_ampersand in H1 as [_ [-> | [-> | ->]]];
          unfold begins_entity_tail; rewrite !starts_with_app; auto.
    + now apply (IH l).
Qed.

(** ** The order of the sort *)

Lemma text_ltb_asym a b : text_ltb a b = true -> text_ltb b a = false.
Proof.
  revert b; induction a as [|x a IH]; intros [|y b]; simpl; auto.
  intros H. apply orb_true_iff in H as [H|[H1 H2]%andb_true_iff].
  - apply N.ltb_lt in H.
    rewrite (proj2 (N.ltb_ge y x)) by lia.
    rewrite (proj2 (N.eqb_neq y x)) by lia. reflexivity.
  - apply N.eqb_eq in H1 as ->. rewrite N.ltb_irrefl, N.eqb_refl. simpl. auto.
Qed.

Lemma text_ltb_negtrans a b c :
  text_ltb a b = false -> text_ltb b c = false -> text_ltb a c = false.
Proof.
  revert b c; induction a as [|x a IH]; intros [|y b] [|z c]; simpl; auto;
    try discriminate.
  intros H1 H2.
  apply orb_false_iff in H1 as [Hxy H1]. apply orb_false_iff in H2 as [Hyz H2].
  apply N.ltb_ge in Hxy, Hyz.
  rewrite (proj2 (N.ltb_ge x z)) by lia. simpl.
  destruct (x =? z)%N eqn:E; [|reflexivity]. apply N.eqb_eq in E as ->.
  assert (y = z) as -> by lia. rewrite N.eqb_refl in H1, H2. simpl in *.
  eauto.
Qed.

Lemma insert_desc_sorted {A} (key : A -> text) x l :
  StronglySorted (fun a b => text_ltb (key a) (key b) = false) l ->
  StronglySorted (fun a b => text_ltb (key a) (key b) = false) (insert_desc key x l).
Proof.
  induction 1 as [|y l Hl IH Hy]; simpl.
  - repeat constructor.
  - destruct (text_ltb (key x) (key y)) eqn:E.
    + constructor; [exact IH|].
      eapply Permutation_Forall; [symmetry; apply insert_desc_perm|].
      constructor; [now apply text_ltb_asym | exact Hy].
    + constructor; [now constructor|].
      constructor; [exact E|].
      eapply Forall_impl; [exact Hy|]. intros z Hz. simpl in Hz.
      eapply text_ltb_negtrans; eauto.
Qed.

Lemma sorted_desc_sorted {A} (key : A -> text) l :
  StronglySorted (fun a b => text_ltb (key a) (key b) = false) (sorted_desc key l).
Proof.
  induction l as [|x l IH]; simpl; [constructor|].
  now apply insert_desc_sorted.
Qed.

Lemma StronglySorted_precedes {A} (R : A -> A -> Prop) l1 a l2 b l3 :
  StronglySorted R (l1 ++ a :: l2 ++ b :: l3) -> R a b.
Proof.
  induction l1 as [|x l1 IH]; simpl; intros H; inversion H; subst; auto.
  match goal with HF : Forall _ _ |- _ =>
    rewrite List.Forall_forall in HF; apply HF end.
  apply in_or_app. right. now left.
Qed.

(** Eight zeros are below every other text of eight digits. *)
Lemma zeros_ltb n s :
  Forall (fun c => (48 <= c)%N) s -> length s = n -> s <> replicate n 48%N ->
  text_ltb (replicate n 48%N) s = true.
Proof.
  revert n; induction s as [|c s IH]; intros [|n] Hs Hlen Hne;
    try discriminate; [now contradiction Hne|].
  inversion Hs; subst. simpl.
  destruct (48 <? c)%N eqn:E; [reflexivity|]. apply N.ltb_ge in E.
  assert (c = 48%N) as -> by lia. simpl. apply IH; auto.
  intros ->. now apply Hne.
Qed.

Lemma digit_char_ge k : (48 <= digit_char k)%N.
Proof. unfold digit_char. lia. Qed.

Lemma zeros_before_valid y m d :
  valid_date y m d -> text_ltb (lit "00000000") (yyyymmdd y m d) = true.
Proof.
  intros (Hy & Hm & Hd).
  apply (zeros_ltb 8).
  - unfold yyyymmdd, four_digits, two_digits. simpl.
    repeat constructor; apply digit_char_ge.
  - reflexivity.
  - unfold yyyymmdd, four_digits, two_digits, digit_char. simpl.
    intros H. injection H as _ _ _ _ H5 H6 _ _.
    pose proof (Z.mod_pos_bound (m / 10) 10 ltac:(lia)).
    pose proof (Z.mod_pos_bound m 10 ltac:(lia)).
    assert (m / 10 mod 10 = 0)%Z by lia. assert (m mod 10 = 0)%Z by lia.
    pose proof (Z.div_mod m 10 ltac:(lia)).
    pose proof (Z.div_mod (m / 10) 10 ltac:(lia)). lia.
Qed.

Lemma permutation_of_three {A} (a b c : A) l :
  Permutation l [a; b; c] ->
  l = [a; b; c] \/ l = [a; c; b] \/ l = [b; a; c]
  \/ l = [b; c; a] \/ l = [c; a; b] \/ l = [c; b; a].
Proof.
  intros H. pose proof (Permutation_length H) as Hlen.
  destruct l as [|x [|y [|z [|? ?]]]]; try discriminate.
  assert (In x [a; b; c]) as Hx by (eapply Permutation_in; [exact H | now left]).
  destruct Hx as [<-|[<-|[<-|[]]]].
  - apply Permutation_cons_inv, Permutation_length_2_inv in H as [H|H];
      injection H as -> ->; auto.
  - rewrite (perm_swap b a [c]) in H.
    apply Permutation_cons_inv, Permutation_length_2_inv in H as [H|H];
      injection H as -> ->; auto 10.
  - assert (Permutation [a; b; c] (c :: [a; b])) as Hrot.
    { symmetry. apply (Permutation_cons_append [a; b] c). }
    rewrite Hrot in H.
    apply Permutation_cons_inv, Permutation_length_2_inv in H as [H|H];
      injection H as -> ->; auto 10.
Qed.

(** ** Dates *)

Lemma digit_value_ascii k :
  (0 <= k <= 9)%Z -> digit_value (digit_char k) = Some k.
Proof.
  intros Hk.
  assert (k = 0 \/ k = 1 \/ k = 2 \/ k = 3 \/ k = 4 \/ k = 5 \/ k = 6
          \/ k = 7 \/ k = 8 \/ k = 9)%Z as H by lia.
  repeat (destruct H as [->|H]; [reflexivity|]). now subst.
Qed.

Lemma digits_of_year y :
  (0 <= y <= 9999)%Z ->
  (1000 * (y / 1000 mod 10) + 100 * (y / 100 mod 10) + 10 * (y / 10 mod 10)
   + y mod 10 = y)%Z.
Proof. intros Hy. Z.to_euclidean_division_equations. lia. Qed.

Lemma group_Y_digits y r :
  (0 <= y <= 9999)%Z -> group_Y (four_digits y ++ r) = [(y, r)].
Proof.
  intros Hy. unfold four_digits, group_Y. cbn [app].
  rewrite !digit_value_ascii
    by (match goal with |- (0 <= ?a mod 10 <= 9)%Z =>
          pose proof (Z.mod_pos_bound a 10 ltac:(lia)); lia end).
  now rewrite digits_of_year.
Qed.

Lemma format_matches_after_year y s :
  (0 <= y <= 9999)%Z ->
  format_matches (four_digits y ++ s)
  = map (fun '(m, d, r) => (y, m, d, r)) (month_day_matches s).
Proof.
  intros Hy. unfold format_matches, month_day_matches.
  rewrite group_Y_digits by assumption. cbn [mbind list_bind]. rewrite app_nil_r.
  induction (group_m s) as [|[m r2] l IH]; [reflexivity|].
  cbn [mbind list_bind]. rewrite map_app, <- IH. f_equal.
  clear IH. induction (group_d r2) as [|[d r3] l' IH']; [reflexivity|].
  cbn [mbind list_bind map app]. now rewrite <- IH'.
Qed.

Lemma strptime_after_year y s :
  (0 <= y <= 9999)%Z ->
  strptime_Ymd (four_digits y ++ s)
  = match month_day_matches s with
    | (m, d, []) :: _ => make_date y m d
    | _ => None
    end.
Proof.
  intros Hy. unfold strptime_Ymd. rewrite format_matches_after_year by assumption.
  now destruct (month_day_matches s) as [|[[m d] [|? ?]] ?].
Qed.

Lemma month_day_read_all :
  forallb (fun m => forallb (fun d => month_day_read (Z.of_nat m) (Z.of_nat d))
                      (seq 0 100)) (seq 0 100) = true.
Proof. vm_compute. reflexivity. Qed.

Lemma month_day_read_ok m d :
  (0 <= m <= 99)%Z -> (0 <= d <= 99)%Z -> month_day_read m d = true.
Proof.
  intros Hm Hd. pose proof month_day_read_all as H.
  rewrite forallb_forall in H. specialize (H (Z.to_nat m)).
  rewrite in_seq in H. specialize (H ltac:(lia)).
  rewrite forallb_forall in H. specialize (H (Z.to_nat d)).
  rewrite in_seq in H. specialize (H ltac:(lia)).
  now rewrite !Z2Nat.id in H by lia.
Qed.

Lemma days_in_month_le y m : (days_in_month y m <= 31)%Z.
Proof.
  unfold days_in_month.
  destruct (m =? 2)%Z; [destruct (is_leap y); lia|].
  destruct ((m =? 4) || (m =? 6) || (m =? 9) || (m =? 11))%Z; lia.
Qed.

Lemma make_date_out_of_range y m d :
  month_day_in_range m d = false -> make_date y m d = None.
Proof.
  unfold month_day_in_range, make_date. intros H.
  pose proof (days_in_month_le y m).
  destruct ((1 <=? y) && (y <=? 9999) && (1 <=? m) && (m <=? 12) && (1 <=? d)
            && (d <=? days_in_month y m))%Z eqn:E; [|reflexivity].
  exfalso. apply not_true_iff_false in H. apply H.
  rewrite !andb_true_iff in *. rewrite !Z.leb_le in *. lia.
Qed.

(** On eight ASCII digits the library reads the year, the month and the
    day as they are written and builds the date. *)
Lemma strptime_digits y m d :
  (0 <= y <= 9999)%Z -> (0 <= m <= 99)%Z -> (0 <= d <= 99)%Z ->
  strptime_Ymd (yyyymmdd y m d) = make_date y m d.
Proof.
  intros Hy Hm Hd. unfold yyyymmdd. rewrite strptime_after_year by assumption.
  pose proof (month_day_read_ok m d Hm Hd) as H. unfold month_day_read in H.
  destruct (month_day_matches (two_digits m ++ two_digits d))
    as [|[[m' d'] [|? ?]] ?].
  - apply negb_true_iff in H. now rewrite make_date_out_of_range.
  - apply andb_true_iff in H as [[H1 H2]%andb_true_iff _].
    apply Z.eqb_eq in H1, H2. now subst.
  - apply negb_true_iff in H. now rewrite make_date_out_of_range.
Qed.

Lemma make_date_valid y m d :
  valid_date y m d -> make_date y m d = Some (Date y m d).
Proof.
  intros (Hy & Hm & Hd). unfold make_date.
  rewrite !(proj2 (Z.leb_le _ _)) by lia. reflexivity.
Qed.


Lemma format_date_digits y m d :
  (0 <= y <= 9999)%Z -> (0 <= m <= 99)%Z -> (0 <= d <= 99)%Z ->
  format_date (yyyymmdd y m d)
  = match make_date y m d with
    | Some date_obj => strftime_BdY date_obj
    | None => lit "Date unknown"
    end.
Proof.
  intros Hy Hm Hd. unfold format_date.
  rewrite strptime_digits by assumption. reflexivity.
Qed.

(** The library also reads a day written with a blank for its tens digit:
    such a text parses, and is rendered as a date. *)
Example format_date_blank_day :
  format_date (lit "202411 1") = lit "November 01, 2024".
Proof. vm_compute. reflexivity. Qed.

(** Before the year 1000 the rendered year has fewer than four digits. *)
Example format_date_year_999 :
  format_date (lit "09990101") = lit "January 01, 999".
Proof. vm_compute. reflexivity. Qed.








(** ** The entry point *)

Lemma world_eta w : World (files w) (stdout w) = w.
Proof. now destruct w. Qed.

Lemma read_existing_html_frame w p content :
  files w !! p = Some content ->
  exists result out,
    read_existing_html p w = Returned result (World (files w) (stdout w ++ out)).
Proof.
  intros Hf.
  destruct (re_search content_start_re content) as [ms|] eqn:Hs;
    [destruct (re_search content_end_re content) as [me|] eqn:He|].
  - rewrite (read_existing_html_primary w p content ms me Hf Hs He).
    eexists _, []. now rewrite app_nil_r, world_eta.
  - rewrite (read_existing_html_last_resort w p content Hf); auto.
    eexists _, [_]. reflexivity.
  - rewrite (read_existing_html_last_resort w p content Hf); auto.
    eexists _, [_]. reflexivity.
Qed.

Lemma read_existing_html_missing w p :
  files w !! p = None -> read_existing_html p w = Raised (FileNotFoundError p) w.
Proof.
  intros Hf. unfold read_existing_html, mbind, M_bind, bind, read_file.
  now rewrite Hf.
Qed.

Lemma fetch_channel_videos_returns extract_info channel_handle w :
  exists out,
    fetch_channel_videos extract_info channel_handle w
    = Returned (fetched_videos extract_info) (World (files w) (stdout w ++ out)).
Proof.
  destruct extract_info as [e|[entries|]]; eexists;
    unfold fetch_channel_videos, mbind, M_bind, bind, print, ret;
    cbn [files stdout fetched_videos]; rewrite <- !app_assoc; reflexivity.
Qed.

Lemma append_inj_l (a b c : string) : a +:+ b = a +:+ c -> b = c.
Proof. induction a as [|x a IH]; simpl; [auto|]. intros [= H]. auto. Qed.

Lemma output_paths_differ dir :
  path_join dir "video-scripts.html" <> path_join dir "video-scripts-output.txt".
Proof. unfold path_join. intros H%append_inj_l. discriminate H. Qed.

(** What [main] does after the banner and the fetch. *)
Lemma main_unfold dir extract_info w :
  exists out,
    main dir extract_info w
    = match fetched_videos extract_info with
      | [] => print (lit "No videos found. Exiting.")
      | _ :: _ =>
          generate_html_file (fetched_videos extract_info)
            (path_join dir "video-scripts.html") true
            (Some (path_join dir "video-scripts-output.txt"));;
          print rule;;
          print (lit "Done! You can now manually add script files to each video section.");;
          print rule
      end (World (files w) (stdout w ++ out)).
Proof.
  unfold main.
  destruct (fetch_channel_videos_returns extract_info (lit "@PyStructEng")
              (World (files w) (((stdout w ++ [rule])
                                 ++ [lit "YouTube Video Sections Generator"])
                                ++ [rule]))) as [out Hout].
  cbn [files stdout] in Hout.
  exists ([rule; lit "YouTube Video Sections Generator"; rule] ++ out).
  unfold mbind, M_bind, bind at 1 2 3 4. unfold print at 1 2 3.
  cbn [files stdout]. rewrite Hout. rewrite <- !app_assoc. reflexivity.
Qed.

(** * Further properties of the program *)

(** ** Fetching *)

Lemma video_of_entry_some entry v :
  video_of_entry entry = Some v ->
  video_id v <> [] /\ url v = lit "https://youtu.be/" ++ video_id v
  /\ entry ≫= e_id = Some (video_id v).
Proof.
  destruct entry as [e|]; [|discriminate]. unfold video_of_entry.
  destruct (e_id e) as [[|c id']|] eqn:E; try discriminate.
  intros [= <-]. cbn [video_id url]. repeat split; [discriminate | exact E].
Qed.

Lemma fetched_videos_well_formed extract_info :
  Forall (fun v => video_id v <> [] /\ url v = lit "https://youtu.be/" ++ video_id v)
         (fetched_videos extract_info).
Proof.
  destruct extract_info as [e|[entries|]]; try constructor.
  cbn [fetched_videos]. induction entries as [|entry entries IH]; [constructor|].
  cbn [omap list_omap]. destruct (video_of_entry entry) as [v|] eqn:E; [|exact IH].
  constructor; [|exact IH]. apply video_of_entry_some in E. tauto.
Qed.

Lemma fetched_ids entries :
  map video_id (omap video_of_entry entries) = entry_ids entries.
Proof.
  unfold entry_ids. induction entries as [|entry entries IH]; [reflexivity|].
  cbn [omap list_omap]. destruct entry as [e|]; [|exact IH].
  unfold video_of_entry. change (Some e ≫= e_id) with (e_id e).
  destruct (e_id e) as [[|c id']|].
  - rewrite filter_cons_False by tauto. exact IH.
  - rewrite filter_cons_True by discriminate. cbn [map video_id].
    f_equal. exact IH.
  - exact IH.
Qed.

(** ** The files [generate_html_file] writes *)

Lemma generate_html_file_returns videos p dry side w header footer w1 :
  read_existing_html p w = Returned (header, footer) w1 ->
  exists out,
    generate_html_file videos p dry side w
    = Returned tt
        (World (files_after (files w1) p dry side (complete_html header footer videos))
               (stdout w1 ++ out)).
Proof.
  intros Hr. unfold generate_html_file, mbind, M_bind, bind. rewrite Hr.
  destruct side as [text_file|], dry;
    cbn [write_file print ret files stdout files_after]; unfold print;
    cbn [files stdout]; eexists; rewrite <- ?app_assoc; reflexivity.
Qed.

Lemma generate_html_file_missing videos p dry side w :
  files w !! p = None ->
  generate_html_file videos p dry side w = Raised (FileNotFoundError p) w.
Proof.
  intros Hf. unfold generate_html_file, mbind, M_bind, bind.
  now rewrite (read_existing_html_missing w p Hf).
Qed.

(** ** The two parts of a split *)

Lemma tag_only_at_end content i j :
  first_occurrence content_tag content i ->
  occurs_at content_tag (take (i + length content_tag) content) j -> j = i.
Proof.
  intros Hfirst [Hj [r Hr]].
  assert (i + length content_tag <= length content) as Hlen.
  { destruct Hfirst as [[Hi [r' Hr']] _].
    apply (f_equal length) in Hr'. rewrite length_drop, length_app in Hr'. lia. }
  rewrite length_take in Hj.
  pose proof (f_equal length Hr) as Hl.
  rewrite length_drop, length_take, length_app in Hl.
  destruct (decide (j < i)) as [Hlt|Hge]; [|lia].
  exfalso. destruct Hfirst as [_ Hfirst]. apply (Hfirst j Hlt).
  rewrite <- (take_drop (i + length content_tag) content).
  apply occurs_at_prefix; [rewrite length_take; lia|].
  split; [rewrite length_take; lia | eauto].
Qed.

(** ** Running [generate_html_file] again *)

Lemma clear_content_html_sealed videos r :
  Forall (fun v => ~ contains_closing (url v)) videos ->
  sealed r -> sealed (wrapper_close ++ r) -> blocked (wrapper_close ++ r) ->
  clear (content_html videos) r.
Proof.
  intros Hvs Hr Hsealed Hblocked. rewrite content_html_parts.
  assert (blocked (str_join [c_nl] (video_sections videos) ++ wrapper_close ++ r))
    as Hb.
  { unfold video_sections. destruct (videos_sorted videos) as [|v vs]; [exact Hblocked|].
    destruct (str_join_sections_head v vs) as [rest ->].
    rewrite <- app_assoc. apply blocked_kills. reflexivity. }
  split_clear wrapper_open.
  { apply clear_fresh; [reflexivity | exact Hb]. }
  split_clear (str_join [c_nl] (video_sections videos)).
  { apply clear_sections; [|exact Hsealed].
    eapply Permutation_Forall; [|exact Hvs].
    symmetry. apply sorted_desc_perm. }
  now apply clear_open.
Qed.

(** Appending the generated content to a text without a closing sequence
    gives a text without one. *)
Lemma no_closing_after_append content videos :
  ~ contains_closing content ->
  Forall (fun v => ~ contains_closing (url v)) videos ->
  ~ contains_closing (content ++ content_html videos).
Proof.
  intros Hc Hvs. apply contains_closing_iff_search.
  apply (re_search_none _ content_end_re_unambiguous). intros j.
  destruct (decide (j < length (content ++ content_html videos))) as [Hj|Hj].
  - rewrite <- (app_nil_r (drop j _)). revert j Hj.
    change (clear (content ++ content_html videos) []).
    split_clear content.
    + rewrite app_nil_r, content_html_parts.
      apply (clear_before_kills content wrapper_open); [|reflexivity].
      intros i. now apply no_closing_no_match.
    + apply clear_content_html_sealed; auto; try (split; discriminate).
      discriminate.
  - rewrite drop_ge by lia. discriminate.
Qed.

Lemma files_after_twice fs p side document :
  files_after (files_after fs p false side document) p false side document
  = files_after fs p false side document.
Proof.
  unfold files_after. destruct side as [text_file|].
  - apply map_eq. intros k. rewrite !lookup_insert.
    repeat case_decide; reflexivity.
  - apply insert_insert_eq.
Qed.

(** ** Escaping loses nothing *)

Ltac entity_case H :=
  vm_compute in H;
  first [ discriminate H
        | injection H; intros; subst;
          first [ split; reflexivity
                | exfalso;
                  repeat match goal with
                         | E : (?a =? ?a)%N = false |- _ =>
                             rewrite N.eqb_refl in E; discriminate E
                         end ] ].

Lemma entity_prefix_free c1 c2 x y :
  entity c1 ++ x = entity c2 ++ y -> c1 = c2 /\ x = y.
Proof.
  unfold entity, c_amp, c_lt, c_gt.
  destruct (c1 =? 38)%N eqn:A1; [|destruct (c1 =? 60)%N eqn:L1;
    [|destruct (c1 =? 62)%N eqn:G1]];
  (destruct (c2 =? 38)%N eqn:A2; [|destruct (c2 =? 60)%N eqn:L2;
    [|destruct (c2 =? 62)%N eqn:G2]]);
  rewrite ?N.eqb_eq in *; subst; intros H; entity_case H.
Qed.

Lemma escaped_inj t1 t2 : escaped t1 = escaped t2 -> t1 = t2.
Proof.
  revert t2; induction t1 as [|c1 t1 IH]; intros [|c2 t2] H; auto.
  - exfalso. change (escaped (c2 :: t2)) with (entity c2 ++ escaped t2) in H.
    unfold entity in H.
    destruct (c2 =? c_amp)%N; [discriminate|].
    destruct (c2 =? c_lt)%N; [discriminate|].
    destruct (c2 =? c_gt)%N; discriminate.
  - exfalso. change (escaped (c1 :: t1)) with (entity c1 ++ escaped t1) in H.
    unfold entity in H.
    destruct (c1 =? c_amp)%N; [discriminate|].
    destruct (c1 =? c_lt)%N; [discriminate|].
    destruct (c1 =? c_gt)%N; discriminate.
  - change (entity c1 ++ escaped t1 = entity c2 ++ escaped t2) in H.
    apply entity_prefix_free in H as [-> H]. f_equal. now apply IH.
Qed.

(** ** Counting characters *)

Lemma count_char_app c a b : count_char c (a ++ b) = count_char c a + count_char c b.
Proof.
  unfold count_char. induction a as [|x a IH]; [reflexivity|].
  cbn [app]. destruct (decide (x = c)) as [Hx|Hx].
  - rewrite !filter_cons_True by assumption. cbn [length]. now rewrite IH.
  - now rewrite !filter_cons_False by assumption.
Qed.

Lemma count_char_lacks c s : lacks c s = true -> count_char c s = 0.
Proof.
  unfold count_char, lacks. induction s as [|x s IH]; [reflexivity|].
  cbn [forallb]. intros [Hx Hs]%andb_true_iff.
  apply negb_true_iff, N.eqb_neq in Hx.
  rewrite filter_cons_False by assumption. auto.
Qed.

Lemma digit_char_lacks_gt n : (digit_char (n mod 10) =? c_gt)%N = false.
Proof.
  apply N.eqb_neq. unfold digit_char, c_gt.
  pose proof (Z.mod_pos_bound n 10 ltac:(lia)). lia.
Qed.

Lemma month_name_lacks_gt m : lacks c_gt (month_name m) = true.
Proof.
  unfold month_name. generalize (Z.to_nat (m - 1)). intros n.
  do 13 (destruct n as [|n]; [reflexivity|]). reflexivity.
Qed.

Lemma format_date_lacks_gt u : lacks c_gt (format_date u) = true.
Proof.
  unfold format_date.
  destruct (bool_decide (u = []) || negb (length u =? 8)); [reflexivity|].
  destruct (strptime_Ymd u) as [d|]; [|reflexivity].
  unfold strftime_BdY. rewrite !lacks_app, month_name_lacks_gt.
  unfold two_digits, strftime_Y, four_digits.
  repeat destruct (_ <? _)%Z; simpl; now rewrite !digit_char_lacks_gt.
Qed.

(** ** Every video has its section *)

Lemma str_join_member sep p parts :
  In p parts -> exists a r, str_join sep parts = a ++ p ++ r.
Proof.
  induction parts as [|q parts IH]; [intros []|].
  intros [->|Hin].
  - exists []. destruct parts; [exists []; now rewrite app_nil_r | eexists; reflexivity].
  - destruct (IH Hin) as (a & r & E). destruct parts as [|q' parts]; [destruct Hin|].
    exists (q ++ sep ++ a), r.
    change (str_join sep (q :: q' :: parts))
      with (q ++ sep ++ str_join sep (q' :: parts)).
    now rewrite E, <- !app_assoc.
Qed.

(** ** Ties keep their order *)

Lemma text_ltb_irrefl a : text_ltb a a = false.
Proof.
  destruct (text_ltb a a) eqn:E; [|reflexivity].
  pose proof (text_ltb_asym a a E). congruence.
Qed.

Lemma insert_desc_filter {A} (key : A -> text) k x l :
  filter (fun v => key v = k) (insert_desc key x l)
  = filter (fun v => key v = k) (x :: l).
Proof.
  induction l as [|y l IH]; [reflexivity|]. cbn [insert_desc].
  destruct (text_ltb (key x) (key y)) eqn:E; [|reflexivity].
  assert (key y <> key x) as Hne
    by (intros Heq; rewrite Heq, text_ltb_irrefl in E; discriminate).
  destruct (decide (key x = k)) as [Hx|Hx].
  - rewrite (filter_cons_True _ x) by assumption.
    rewrite !(filter_cons_False _ y) by congruence.
    rewrite IH. now rewrite filter_cons_True by assumption.
  - rewrite (filter_cons_False _ x) by assumption.
    destruct (decide (key y = k)) as [Hy|Hy].
    + rewrite !(filter_cons_True _ y) by assumption.
      rewrite IH. now rewrite filter_cons_False by assumption.
    + rewrite !(filter_cons_False _ y) by assumption.
      rewrite IH. now rewrite filter_cons_False by assumption.
Qed.

Lemma sorted_desc_filter {A} (key : A -> text) k l :
  filter (fun v => key v = k) (sorted_desc key l)
  = filter (fun v => key v = k) l.
Proof.
  induction l as [|x l IH]; [reflexivity|].
  cbn [sorted_desc foldr]. rewrite insert_desc_filter.
  fold (sorted_desc key l).
  destruct (decide (key x = k)) as [Hx|Hx].
  - rewrite !(filter_cons_True _ x) by assumption. now rewrite IH.
  - rewrite !(filter_cons_False _ x) by assumption. exact IH.
Qed.

(** ** The order of the dates *)

Lemma digits_value_bound s :
  Forall is_digit s -> (0 <= digits_value s < 10 ^ Z.of_nat (length s))%Z.
Proof.
  induction 1 as [|c s Hc Hs IH]; [simpl; lia|].
  cbn [digits_value length]. rewrite Nat2Z.inj_succ, Z.pow_succ_r by lia.
  unfold is_digit in Hc. nia.
Qed.

(** On texts of digits of one length the order of the texts is the order
    of the numbers. *)
Lemma text_ltb_digits a b :
  Forall is_digit a -> Forall is_digit b -> length a = length b ->
  (text_ltb a b = true <-> (digits_value a < digits_value b)%Z).
Proof.
  intros Ha. revert b. induction Ha as [|x a Hx Ha IH]; intros b Hb Hlen.
  - destruct b; [|discriminate]. simpl. split; [discriminate | lia].
  - destruct b as [|y b]; [discriminate|]. injection Hlen as Hlen.
    inversion Hb as [|? ? Hy Hb']; subst.
    cbn [text_ltb digits_value]. rewrite <- Hlen.
    pose proof (digits_value_bound a Ha) as Ba.
    pose proof (digits_value_bound b Hb') as Bb. rewrite <- Hlen in Bb.
    specialize (IH b Hb' Hlen). unfold is_digit in Hx, Hy.
    set (P := (10 ^ Z.of_nat (length a))%Z) in *.
    rewrite orb_true_iff, andb_true_iff, N.ltb_lt, N.eqb_eq, IH. split.
    + intros [Hlt | [-> Hlt]]; nia.
    + intros Hlt. destruct (N.lt_trichotomy x y) as [Hxy | [Hxy | Hxy]];
        [now left | right; split; [assumption | subst; lia] | exfalso; nia].
Qed.

Lemma digit_char_value k : (0 <= k)%Z -> (Z.of_N (digit_char k) - 48 = k)%Z.
Proof. unfold digit_char. lia. Qed.

Lemma digit_char_is_digit n : is_digit (digit_char (n mod 10)).
Proof.
  unfold is_digit, digit_char. pose proof (Z.mod_pos_bound n 10 ltac:(lia)). lia.
Qed.

Lemma digits_of_two n :
  (0 <= n <= 99)%Z -> (10 * (n / 10 mod 10) + n mod 10 = n)%Z.
Proof. intros Hn. Z.to_euclidean_division_equations. lia. Qed.

Lemma yyyymmdd_digits y m d : Forall is_digit (yyyymmdd y m d).
Proof.
  unfold yyyymmdd, four_digits, two_digits. cbn [app].
  repeat constructor; apply digit_char_is_digit.
Qed.

Lemma digits_value_yyyymmdd y m d :
  (0 <= y <= 9999)%Z -> (0 <= m <= 99)%Z -> (0 <= d <= 99)%Z ->
  digits_value (yyyymmdd y m d) = date_number y m d.
Proof.
  intros Hy Hm Hd. unfold yyyymmdd, four_digits, two_digits, date_number.
  cbn [app digits_value length].
  rewrite !digit_char_value by (apply Z.mod_pos_bound; lia).
  pose proof (digits_of_year y Hy). pose proof (digits_of_two m Hm).
  pose proof (digits_of_two d Hd).
  change (10 ^ Z.of_nat 7)%Z with 10000000%Z. change (10 ^ Z.of_nat 6)%Z with 1000000%Z.
  change (10 ^ Z.of_nat 5)%Z with 100000%Z. change (10 ^ Z.of_nat 4)%Z with 10000%Z.
  change (10 ^ Z.of_nat 3)%Z with 1000%Z. change (10 ^ Z.of_nat 2)%Z with 100%Z.
  change (10 ^ Z.of_nat 1)%Z with 10%Z. change (10 ^ Z.of_nat 0)%Z with 1%Z.
  lia.
Qed.

Lemma text_ltb_yyyymmdd y m d y' m' d' :
  (0 <= y <= 9999)%Z -> (0 <= m <= 99)%Z -> (0 <= d <= 99)%Z ->
  (0 <= y' <= 9999)%Z -> (0 <= m' <= 99)%Z -> (0 <= d' <= 99)%Z ->
  (text_ltb (yyyymmdd y m d) (yyyymmdd y' m' d') = true
   <-> (date_number y m d < date_number y' m' d')%Z).
Proof.
  intros. rewrite text_ltb_digits by (try apply yyyymmdd_digits; reflexivity).
  now rewrite !digits_value_yyyymmdd.
Qed.

Lemma valid_date_ranges y m d :
  valid_date y m d -> (0 <= y <= 9999 /\ 0 <= m <= 99 /\ 0 <= d <= 99)%Z.
Proof. intros (Hy & Hm & Hd). pose proof (days_in_month_le y m). lia. Qed.

(** ** Rendered dates are told apart *)

Lemma month_name_sep m m' t t' :
  (1 <= m <= 12)%Z -> (1 <= m' <= 12)%Z ->
  month_name m ++ 32%N :: t = month_name m' ++ 32%N :: t' -> m = m' /\ t = t'.
Proof.
  intros Hm Hm'.
  assert (m = 1 \/ m = 2 \/ m = 3 \/ m = 4 \/ m = 5 \/ m = 6 \/ m = 7 \/ m = 8
          \/ m = 9 \/ m = 10 \/ m = 11 \/ m = 12)%Z as Em by lia.
  assert (m' = 1 \/ m' = 2 \/ m' = 3 \/ m' = 4 \/ m' = 5 \/ m' = 6 \/ m' = 7
          \/ m' = 8 \/ m' = 9 \/ m' = 10 \/ m' = 11 \/ m' = 12)%Z as Em' by lia.
  clear Hm Hm'.
  repeat (destruct Em as [->|Em]); try subst m;
    repeat (destruct Em' as [->|Em']); try subst m';
    intros H; vm_compute in H;
    first [discriminate H | injection H as ->; split; reflexivity].
Qed.

Lemma digit_char_inj a b :
  (0 <= a)%Z -> (0 <= b)%Z -> digit_char a = digit_char b -> a = b.
Proof. unfold digit_char. lia. Qed.

Lemma strftime_Y_inj y y' :
  (0 <= y <= 9999)%Z -> (0 <= y' <= 9999)%Z ->
  strftime_Y y = strftime_Y y' -> y = y'.
Proof.
  intros Hy Hy'. unfold strftime_Y, four_digits.
  destruct (y <? 10)%Z eqn:E1; [|destruct (y <? 100)%Z eqn:E2;
    [|destruct (y <? 1000)%Z eqn:E3]];
  (destruct (y' <? 10)%Z eqn:E1'; [|destruct (y' <? 100)%Z eqn:E2';
    [|destruct (y' <? 1000)%Z eqn:E3']]);
  intros H; try discriminate H;
  rewrite ?Z.ltb_lt, ?Z.ltb_ge in *;
  injection H; intros;
  repeat match goal with
         | E : digit_char ?a = digit_char ?b |- _ =>
             apply digit_char_inj in E;
             [|apply Z.mod_pos_bound; lia|apply Z.mod_pos_bound; lia]
         end;
  pose proof (digits_of_year y Hy); pose proof (digits_of_year y' Hy');
  Z.to_euclidean_division_equations; lia.
Qed.

(** ** Running [main] again *)

(** What the splitter returns and prints depends on the text alone. *)
Lemma read_existing_html_of_text content :
  exists result out,
    forall w p, files w !! p = Some content ->
      read_existing_html p w = Returned result (World (files w) (stdout w ++ out)).
Proof.
  destruct (re_search content_start_re content) as [ms|] eqn:Hs;
    [destruct (re_search content_end_re content) as [me|] eqn:He|].
  - eexists _, []. intros w p Hf.
    rewrite (read_existing_html_primary w p content ms me Hf Hs He).
    now rewrite app_nil_r, world_eta.
  - eexists _, [_]. intros w p Hf.
    rewrite (read_existing_html_last_resort w p content Hf); [reflexivity | auto].
  - eexists _, [_]. intros w p Hf.
    rewrite (read_existing_html_last_resort w p content Hf); [reflexivity | auto].
Qed.

Lemma main_returns dir extract_info content :
  exists document,
    forall w, files w !! path_join dir "video-scripts.html" = Some content ->
      exists out,
        main dir extract_info w
        = Returned tt
            (World (match fetched_videos extract_info with
                    | [] => files w
                    | _ :: _ =>
                        <[path_join dir "video-scripts-output.txt" := document]>
                          (files w)
                    end) (stdout w ++ out)).
Proof.
  destruct (read_existing_html_of_text content) as ([header footer] & out1 & Hread).
  exists (complete_html header footer (fetched_videos extract_info)).
  intros w Hf. destruct (main_unfold dir extract_info w) as [out0 Hmain].
  rewrite Hmain. destruct (fetched_videos extract_info) as [|v vs] eqn:Hv.
  - unfold print. cbn [files stdout]. eexists. now rewrite <- app_assoc.
  - rewrite <- Hv. unfold mbind, M_bind, bind.
    rewrite (generate_html_file_preview _ _ _ _ header footer _
               (Hread (World (files w) (stdout w ++ out0)) _ Hf)).
    unfold print. cbn [files stdout]. eexists. rewrite <- !app_assoc.
    reflexivity.
Qed.

(** * The properties of the specification *)

(** ** The document splitter *)

(** C1, as the code has it. When the document contains the opening tag and
    the closing sequence, the header is the text up to and including the
    first opening tag, and the footer begins at the whitespace before the
    first closing sequence and runs to the end of the text; and this is so
    for every way of reading the document as a text, a run of whitespace
    and the first closing sequence. For the
    document [H<div class="content">OLD</div></div></body>], where [H]
    contains neither the opening tag nor a closing sequence and [OLD] no
    closing sequence, the header is [H<div class="content">] and the
    footer is the whitespace that ends [OLD] followed by
    [</div></div></body>]. *)
Theorem splitter_boundaries w p content :
  files w !! p = Some content ->
  (contains content_tag content -> contains_closing content ->
   exists i pre ws rest,
     first_occurrence content_tag content i
     /\ content = pre ++ ws ++ rest
     /\ first_closing content (length (pre ++ ws))
     /\ all_space ws /\ no_trailing_space pre
     /\ read_existing_html p w
        = Returned (take (i + length content_tag) content, ws ++ rest) w)
  /\ (forall i pre ws rest,
      first_occurrence content_tag content i ->
      content = pre ++ ws ++ rest ->
      first_closing content (length (pre ++ ws)) ->
      all_space ws -> no_trailing_space pre ->
      read_existing_html p w
      = Returned (take (i + length content_tag) content, ws ++ rest) w)
  /\ (forall H old ws,
      content = H ++ content_tag ++ (old ++ ws) ++ final_closing ->
      ~ contains content_tag H -> ~ contains_closing H ->
      ~ contains_closing (old ++ ws) ->
      all_space ws -> no_trailing_space old ->
      read_existing_html p w
      = Returned (H ++ content_tag, ws ++ final_closing) w).
Proof.
  intros Hf. split; [|split].
  - intros Htag Hclose.
    destruct (primary_boundaries_exist content Htag Hclose)
      as (i & pre & ws & rest & ms & me & Hfirst & Hc & Hend & Hws & Hpre & _).
    exists i, pre, ws, rest. repeat (split; [assumption|]).
    subst content. now apply splitter_boundaries_general.
  - intros i pre ws rest Hstart -> Hend Hws Hpre.
    now apply splitter_boundaries_general.
  - intros H old ws -> HH1 HH2 Hold Hws Hnt.
    assert (H ++ content_tag ++ (old ++ ws) ++ final_closing
            = (H ++ content_tag ++ old) ++ ws ++ final_closing) as E
      by now rewrite <- !app_assoc.
    rewrite E in Hf.
    rewrite (splitter_boundaries_general w p (length H) _ ws final_closing Hf).
    + rewrite <- E, app_assoc, take_app_length'; [reflexivity|].
      now rewrite length_app.
    + rewrite <- E. now apply tag_first_after.
    + now apply final_closing_first.
    + assumption.
    + now apply no_trailing_space_after_tag.
Qed.

Lemma splitter_boundaries_witness :
  read_existing_html "video-scripts.html"
    (World {[ "video-scripts.html" :=
                lit "<body>" ++ content_tag ++ (lit "old" ++ [c_nl])
                ++ final_closing ]} [])
  = Returned (lit "<body>" ++ content_tag, [c_nl] ++ final_closing)
      (World {[ "video-scripts.html" :=
                  lit "<body>" ++ content_tag ++ (lit "old" ++ [c_nl])
                  ++ final_closing ]} []).
Proof.
  refine (proj2 (proj2 (splitter_boundaries _ _ _ _)) (lit "<body>") (lit "old") [c_nl]
            eq_refl _ _ _ _ _).
  - apply lookup_singleton_eq.
  - apply contains_check. vm_compute. reflexivity.
  - apply contains_closing_check. vm_compute. reflexivity.
  - apply contains_closing_check. vm_compute. reflexivity.
  - unfold all_space. repeat constructor.
  - intros c. simpl. intros [= <-]. reflexivity.
Defined.

(** C1 as it was stated fails: whitespace at the end of the old content
    belongs to the footer. *)
Lemma footer_is_closing_tags_verbatim_fails :
  read_existing_html "video-scripts.html"
    (World {[ "video-scripts.html" := content_tag ++ lit " " ++ final_closing ]} [])
  = Returned (content_tag, lit " " ++ final_closing)
      (World {[ "video-scripts.html" := content_tag ++ lit " " ++ final_closing ]} [])
  /\ ~ footer_is_closing_tags_verbatim.
Proof.
  split; [vm_compute; reflexivity|].
  intros Hall.
  specialize (Hall
    (World {[ "video-scripts.html" := content_tag ++ lit " " ++ final_closing ]} [])
    "video-scripts.html" [] (lit " ") (lookup_singleton_eq _ _)).
  assert (~ contains_closing (lit " ")) as Hold
    by (apply contains_closing_check; vm_compute; reflexivity).
  specialize (Hall Hold). vm_compute in Hall. discriminate Hall.
Qed.

(** C3. Given the text of the file, the splitter never raises; when the
    opening tag or the closing sequence is not in the text, it returns the
    whole text as the header and the empty string as the footer, after a
    warning on the console. *)
Theorem splitter_degrades_silently w p content :
  files w !! p = Some content ->
  (exists result w', read_existing_html p w = Returned result w')
  /\ (~ contains content_tag content \/ ~ contains_closing content ->
      read_existing_html p w = Returned (content, []) (warned w)).
Proof.
  intros Hf. split.
  - destruct (re_search content_start_re content) as [ms|] eqn:Hs.
    + destruct (re_search content_end_re content) as [me|] eqn:He.
      * rewrite (read_existing_html_primary w p content ms me); eauto.
      * rewrite (read_existing_html_last_resort w p content); eauto.
    + rewrite (read_existing_html_last_resort w p content); eauto.
  - intros H. rewrite (read_existing_html_last_resort w p content); auto.
    destruct H as [H|H].
    + left. now apply re_search_literal_none.
    + right. now apply contains_closing_iff_search.
Qed.

Lemma splitter_degrades_silently_witness :
  read_existing_html "video-scripts.html"
    (World {[ "video-scripts.html" := lit "<p>no container</p>" ]} [])
  = Returned (lit "<p>no container</p>", [])
      (warned (World {[ "video-scripts.html" := lit "<p>no container</p>" ]} [])).
Proof.
  refine (proj2 (splitter_degrades_silently _ _ _ _) _).
  - apply lookup_singleton_eq.
  - left. apply contains_check. vm_compute. reflexivity.
Defined.

(** C9. The fallback strategy finds its boundaries exactly when the primary
    strategy finds its own, so it is never the one that answers: the
    splitter is the function with two cases, the primary strategy and the
    last resort. *)
Theorem fallback_unreachable :
  (forall content, fallback_succeeds content <-> primary_succeeds content)
  /\ (forall p w, read_existing_html p w = read_existing_html_two_cases p w).
Proof.
  split.
  - intros content. unfold fallback_succeeds, primary_succeeds.
    rewrite str_find_search, <- !not_eq_None_Some, end_pattern_none_iff.
    destruct (re_search content_start_re content) as [ms|]; [|tauto].
    split; intros [_ H]; (split; [|exact H]); [discriminate | lia].
  - intros p w.
    destruct (files w !! p) as [content|] eqn:Hf.
    + unfold read_existing_html_two_cases, mbind, M_bind, bind, read_file.
      rewrite Hf.
      destruct (re_search content_start_re content) as [ms|] eqn:Hs.
      * destruct (re_search content_end_re content) as [me|] eqn:He.
        -- now apply read_existing_html_primary.
        -- apply read_existing_html_last_resort; auto.
      * apply read_existing_html_last_resort; auto.
    + unfold read_existing_html, read_existing_html_two_cases,
        mbind, M_bind, bind, read_file. now rewrite Hf.
Qed.

Lemma fallback_unreachable_witness :
  read_existing_html "video-scripts.html"
    (World {[ "video-scripts.html" := content_tag ++ final_closing ]} [])
  = read_existing_html_two_cases "video-scripts.html"
      (World {[ "video-scripts.html" := content_tag ++ final_closing ]} []).
Proof. apply (proj2 fallback_unreachable). Defined.

(** C2, as the code has it. Splitting the assembled document again always
    yields the same header. It yields the same footer when the header and
    the footer of the original document do not overlap, that is when the
    closing sequence is found after the opening tag, and no video's url
    contains the closing sequence. *)
Theorem resplit_same_boundaries w p content header footer videos w2 q :
  files w !! p = Some content ->
  primary_succeeds content ->
  read_existing_html p w = Returned (header, footer) w ->
  files w2 !! q = Some (complete_html header footer videos) ->
  (exists footer', read_existing_html q w2 = Returned (header, footer') w2)
  /\ (length header + length footer <= length content ->
      Forall (fun v => ~ contains_closing (url v)) videos ->
      read_existing_html q w2 = Returned (header, footer) w2).
Proof.
  intros Hf Hp Hr Hf2.
  destruct (primary_split w p content header footer Hf Hp Hr)
    as (i & m & Hfirst & -> & Hlen & Hm & -> & Hrun & Hno).
  rewrite length_take in Hlen. unfold complete_html in Hf2. split.
  - apply (resplit_header content i (content_html videos ++ drop m content)
             w2 q Hfirst); [lia | exact Hf2 |].
    exists (length (take (i + length content_tag) content ++ content_html videos)).
    now rewrite app_assoc, drop_app_length.
  - intros Hover Hvs. rewrite length_take, length_drop in Hover.
    apply (resplit_footer content i m videos w2 q Hfirst); auto; lia.
Qed.

Lemma resplit_same_boundaries_witness :
  let content := lit "<body>" ++ content_tag ++ lit "old" ++ [c_nl] ++ final_closing in
  let header := lit "<body>" ++ content_tag in
  let footer := [c_nl] ++ final_closing in
  let videos := [VideoData (lit "A & B") (lit "abc123") (lit "https://youtu.be/abc123")
                   (lit "20240101") []] in
  let w2 := World {[ "video-scripts-output.txt" := complete_html header footer videos ]} [] in
  read_existing_html "video-scripts-output.txt" w2 = Returned (header, footer) w2.
Proof.
  intros content header footer videos w2.
  refine (proj2 (resplit_same_boundaries
                   (World {[ "video-scripts.html" := content ]} [])
                   "video-scripts.html" content header footer videos w2
                   "video-scripts-output.txt" _ _ _ _) _ _).
  - apply lookup_singleton_eq.
  - split; eexists; vm_compute; reflexivity.
  - vm_compute. reflexivity.
  - apply lookup_singleton_eq.
  - vm_compute. lia.
  - constructor; [|constructor].
    apply contains_closing_check. vm_compute. reflexivity.
Defined.

(** C2 as it was stated fails: when the closing sequence stands before the
    opening tag, the header and the footer overlap, and the footer of the
    assembled document is the whole of it. *)
Lemma resplit_always_same_fails :
  let content := final_closing ++ content_tag in
  let videos := [VideoData (lit "A & B") (lit "abc123") (lit "https://youtu.be/abc123")
                   (lit "20240101") []] in
  let w := World {[ "video-scripts.html" := content ]} [] in
  let w2 := World {[ "video-scripts.html" := complete_html content content videos ]} [] in
  read_existing_html "video-scripts.html" w = Returned (content, content) w
  /\ read_existing_html "video-scripts.html" w2
     = Returned (content, complete_html content content videos) w2
  /\ ~ resplit_always_same.
Proof.
  intros content videos w w2.
  assert (read_existing_html "video-scripts.html" w = Returned (content, content) w)
    as Hr by (vm_compute; reflexivity).
  assert (read_existing_html "video-scripts.html" w2
          = Returned (content, complete_html content content videos) w2)
    as Hr2 by (vm_compute; reflexivity).
  split; [exact Hr|]. split; [exact Hr2|].
  intros Hall.
  specialize (Hall w "video-scripts.html" content content content videos w2
                "video-scripts.html" (lookup_singleton_eq _ _)).
  assert (primary_succeeds content) as Hp
    by (split; eexists; vm_compute; reflexivity).
  specialize (Hall Hp Hr (lookup_singleton_eq _ _)).
  rewrite Hr2 in Hall. injection Hall as Hall.
  apply (f_equal length) in Hall. vm_compute in Hall. discriminate Hall.
Qed.

(** C10. When the splitter finds both boundaries, the assembled document
    has the opening tag twice: at the end of the preserved header, and
    again eight spaces later, where the content wrapper begins. The new
    block is nested in the preserved container. *)
Theorem content_container_nested w p content header footer videos :
  files w !! p = Some content ->
  primary_succeeds content ->
  read_existing_html p w = Returned (header, footer) w ->
  exists h,
    header = h ++ content_tag
    /\ occurs_at content_tag (complete_html header footer videos) (length h)
    /\ occurs_at content_tag (complete_html header footer videos) (length header + 8)
    /\ (exists rest,
          complete_html header footer videos
          = h ++ content_tag ++ lit "        " ++ content_tag ++ rest)
    /\ forall dry side,
        exists w',
          generate_html_file videos p dry (Some side) w = Returned tt w'
          /\ files w' !! side = Some (complete_html header footer videos).
Proof.
  intros Hf Hp Hr.
  destruct (primary_split w p content header footer Hf Hp Hr)
    as (i & m & Hfirst & Hh & Hlen & Hm & Hfoot & Hrun & Hno).
  rewrite (take_through_tag content i Hfirst) in Hh.
  exists (take i content). split; [exact Hh|].
  destruct (content_html_nested videos) as [rest Hrest].
  unfold complete_html. rewrite Hrest. subst header.
  rewrite <- !app_assoc.
  split; [apply occurs_here|].
  split.
  { rewrite (app_assoc (take i content) content_tag).
    apply (occurs_after (take i content ++ content_tag) (lit "        ")). }
  split; [eauto|].
  - intros dry side.
    destruct (generate_html_file_side videos p dry side w _ _ w Hr) as (w' & Hg & Hs).
    exists w'. split; [exact Hg|].
    rewrite Hs. unfold complete_html. now rewrite Hrest, <- !app_assoc.
Qed.

Lemma content_container_nested_witness :
  let content := lit "<body>" ++ content_tag ++ lit "old" ++ final_closing in
  exists h,
    lit "<body>" ++ content_tag = h ++ content_tag
    /\ occurs_at content_tag
         (complete_html (lit "<body>" ++ content_tag) final_closing []) (length h)
    /\ occurs_at content_tag
         (complete_html (lit "<body>" ++ content_tag) final_closing [])
         (length (lit "<body>" ++ content_tag) + 8).
Proof.
  intros content.
  destruct (content_container_nested
              (World {[ "video-scripts.html" := content ]} [])
              "video-scripts.html" content (lit "<body>" ++ content_tag)
              final_closing [])
    as (h & Hh & H1 & H2 & _).
  - apply lookup_singleton_eq.
  - split; eexists; vm_compute; reflexivity.
  - vm_compute. reflexivity.
  - exists h. auto.
Defined.

(** ** The fragment renderer *)

(** C4. In the fragment the title stands with each [&], [<] and [>]
    replaced by its entity, in the order of the title, and every other
    character as it is; this is what the three replacements, ampersand
    first, then less-than, then greater-than, produce. No [<] or [>] is
    left in it, and every [&] in it begins an entity. *)
Theorem title_escaping video :
  let title' :=
    str_replace
      (str_replace (str_replace (title video) (lit "&") (lit "&amp;"))
         (lit "<") (lit "&lt;"))
      (lit ">") (lit "&gt;") in
  generate_video_section_html video
  = section_before_title ++ title' ++ section_before_date
    ++ format_date (upload_date video) ++ section_before_url ++ url video
    ++ section_after_url
  /\ title' = flat_map entity (title video)
  /\ ~ In c_lt title' /\ ~ In c_gt title'
  /\ (forall pre post, title' = pre ++ c_amp :: post -> begins_entity_tail post)
  /\ entity c_amp = lit "&amp;" /\ entity c_lt = lit "&lt;"
  /\ entity c_gt = lit "&gt;"
  /\ (forall c, c <> c_amp -> c <> c_lt -> c <> c_gt -> entity c = [c]).
Proof.
  intros title'. subst title'. rewrite replace_chain_escaped.
  split; [apply generate_video_section_html_parts|].
  split; [reflexivity|].
  split; [apply lacks_spec, escaped_lacks_lt|].
  split; [apply lacks_spec, escaped_lacks_gt|].
  split; [apply escaped_ampersand|].
  repeat split.
  intros c H1 H2 H3. unfold entity.
  now rewrite (proj2 (N.eqb_neq c c_amp) H1), (proj2 (N.eqb_neq c c_lt) H2),
    (proj2 (N.eqb_neq c c_gt) H3).
Qed.

Lemma title_escaping_witness :
  begins_entity_tail (lit "amp; B &lt;x&gt;").
Proof.
  refine (proj1 (proj2 (proj2 (proj2 (proj2
            (title_escaping (VideoData (lit "A & B <x>") (lit "abc123")
                               (lit "https://youtu.be/abc123") (lit "20240101") [])))))) (lit "A ") _ _).
  vm_compute. reflexivity.
Defined.

(** ** The document assembler *)

(** C5. The fragments are rendered in the order of the sorted list, which
    is a rearrangement of the videos in descending order of their keys; the
    key is the upload date, or ["00000000"] when the date is empty, which
    is below every valid date, so a record without a date never stands
    before a record with a valid one. Three records dated ["20240301"],
    ["20230101"] and without a date come out in this order however they
    came in. *)
Theorem assembled_in_date_order videos :
  video_sections videos
  = map generate_video_section_html (videos_sorted videos)
  /\ content_html videos
     = wrapper_open ++ str_join [c_nl] (video_sections videos) ++ wrapper_close
  /\ Permutation (videos_sorted videos) videos
  /\ StronglySorted not_after (videos_sorted videos)
  /\ (forall v, upload_date v = [] -> date_key v = lit "00000000")
  /\ (forall v, upload_date v <> [] -> date_key v = upload_date v)
  /\ (forall y m d, valid_date y m d ->
        text_ltb (lit "00000000") (yyyymmdd y m d) = true)
  /\ (forall l1 a l2 b l3 y m d,
        videos_sorted videos = l1 ++ a :: l2 ++ b :: l3 ->
        upload_date a = [] -> upload_date b = yyyymmdd y m d ->
        ~ valid_date y m d)
  /\ (forall a b c,
        upload_date a = lit "20240301" -> upload_date b = lit "20230101" ->
        upload_date c = [] ->
        Permutation videos [a; b; c] -> videos_sorted videos = [a; b; c]).
Proof.
  split; [reflexivity|]. split; [apply content_html_parts|].
  split; [apply sorted_desc_perm|]. split; [apply sorted_desc_sorted|].
  split; [intros v Hv; unfold date_key; now rewrite Hv|].
  split; [intros v Hv; unfold date_key; now destruct (upload_date v)|].
  split; [apply zeros_before_valid|]. split.
  - intros l1 a l2 b l3 y m d Hs Ha Hb Hvalid.
    pose proof (sorted_desc_sorted date_key videos) as Hsorted.
    fold (videos_sorted videos) in Hsorted. rewrite Hs in Hsorted.
    apply StronglySorted_precedes in Hsorted.
    unfold date_key in Hsorted. rewrite Ha, Hb in Hsorted.
    change (text_ltb (lit "00000000") (yyyymmdd y m d) = false) in Hsorted.
    now rewrite zeros_before_valid in Hsorted.
  - intros a b c Ha Hb Hc Hperm.
    assert (date_key a = lit "20240301") as Ka by (unfold date_key; now rewrite Ha).
    assert (date_key b = lit "20230101") as Kb by (unfold date_key; now rewrite Hb).
    assert (date_key c = lit "00000000") as Kc by (unfold date_key; now rewrite Hc).
    destruct (permutation_of_three a b c videos Hperm)
      as [-> | [-> | [-> | [-> | [-> | ->]]]]];
      unfold videos_sorted, sorted_desc; cbn [foldr insert_desc];
      repeat (rewrite ?Ka, ?Kb, ?Kc;
              match goal with
              | |- context [text_ltb (lit ?x) (lit ?y)] =>
                  let v := eval vm_compute in (text_ltb (lit x) (lit y)) in
                  change (text_ltb (lit x) (lit y)) with v
              end; cbn [insert_desc]);
      reflexivity.
Qed.

Lemma assembled_in_date_order_witness :
  let a := VideoData (lit "first") (lit "a") (lit "https://youtu.be/a") (lit "20240301") [] in
  let b := VideoData (lit "second") (lit "b") (lit "https://youtu.be/b") (lit "20230101") [] in
  let c := VideoData (lit "third") (lit "c") (lit "https://youtu.be/c") [] [] in
  videos_sorted [c; a; b] = [a; b; c].
Proof.
  intros a b c.
  refine (proj2 (proj2 (proj2 (proj2 (proj2 (proj2 (proj2 (proj2
            (assembled_in_date_order [c; a; b])))))))) a b c eq_refl eq_refl eq_refl _).
  apply (Permutation_cons_append [a; b] c).
Defined.

(** ** The date formatter *)




(** ** The entry point *)

(** C8. [main] never changes the original HTML file, however it ends.
    When the fetch yields no video it prints a message and returns without
    touching any file. Otherwise it runs [generate_html_file] in preview
    mode with the side file: when the HTML file can be read this returns,
    and the only change to the files is that the side file holds the
    assembled document. *)
Theorem main_never_overwrites dir extract_info w :
  let html := path_join dir "video-scripts.html" in
  let side := path_join dir "video-scripts-output.txt" in
  let videos := fetched_videos extract_info in
  files (final_world (main dir extract_info w)) !! html = files w !! html
  /\ (videos = [] ->
      exists out,
        main dir extract_info w
        = Returned tt (World (files w)
                             (stdout w ++ out ++ [lit "No videos found. Exiting."])))
  /\ (forall content,
        videos <> [] -> files w !! html = Some content ->
        exists w0 header footer w1 wg out,
          files w0 = files w /\ files w1 = files w
          /\ read_existing_html html w0 = Returned (header, footer) w1
          /\ generate_html_file videos html true (Some side) w0 = Returned tt wg
          /\ files wg = <[side := complete_html header footer videos]> (files w)
          /\ files wg !! html = Some content
          /\ main dir extract_info w
             = Returned tt (World (files wg) (stdout wg ++ out))).
Proof.
  intros html side videos.
  destruct (main_unfold dir extract_info w) as [out0 Hmain].
  fold html side videos in Hmain.
  set (w0 := World (files w) (stdout w ++ out0)) in *.
  assert (videos = [] ->
          main dir extract_info w
          = Returned tt (World (files w)
                               (stdout w ++ out0 ++ [lit "No videos found. Exiting."])))
    as Hnone.
  { intros Hv. rewrite Hmain, Hv. unfold print, w0. cbn [files stdout].
    now rewrite <- app_assoc. }
  assert (forall content,
            videos <> [] -> files w !! html = Some content ->
            exists header footer w1 wg out,
              files w1 = files w
              /\ read_existing_html html w0 = Returned (header, footer) w1
              /\ generate_html_file videos html true (Some side) w0 = Returned tt wg
              /\ files wg = <[side := complete_html header footer videos]> (files w)
              /\ files wg !! html = Some content
              /\ main dir extract_info w
                 = Returned tt (World (files wg) (stdout wg ++ out)))
    as Hsome.
  { intros content Hv Hf.
    destruct (read_existing_html_frame w0 html content Hf) as ([header footer] & out1 & Hr).
    pose proof (generate_html_file_preview videos html side w0 header footer _ Hr) as Hg.
    cbn [files stdout] in Hg.
    eexists header, footer, _, _,
      [rule; lit "Done! You can now manually add script files to each video section.";
       rule].
    split; [|split; [exact Hr|split; [exact Hg|]]]; [reflexivity|].
    cbn [files]. split; [reflexivity|]. split.
    - rewrite lookup_insert_ne; [exact Hf|]. apply not_eq_sym, output_paths_differ.
    - rewrite Hmain. destruct videos as [|v vs]; [congruence|].
      unfold mbind, M_bind, bind. rewrite Hg. unfold print. cbn [files stdout].
      now rewrite <- !app_assoc. }
  split; [|split].
  - destruct videos as [|v vs] eqn:Hv.
    + now rewrite (Hnone eq_refl).
    + destruct (files w !! html) as [content|] eqn:Hf.
      * destruct (Hsome content ltac:(discriminate) eq_refl)
          as (header & footer & w1 & wg & out & _ & _ & _ & _ & Hwg & ->).
        exact Hwg.
      * rewrite Hmain. unfold mbind, M_bind, bind, generate_html_file.
        unfold mbind, M_bind, bind.
        rewrite (read_existing_html_missing w0 html Hf). exact Hf.
  - intros Hv. eauto.
  - intros content Hv Hf.
    destruct (Hsome content Hv Hf) as (header & footer & w1 & wg & out & H).
    exists w0, header, footer, w1, wg, out. split; [reflexivity | exact H].
Qed.

Lemma main_never_overwrites_witness :
  let w := World {[ "site/video-scripts.html" := content_tag ++ final_closing ]} [] in
  exists out,
    main "site" (ExtractRaises (lit "network unreachable")) w
    = Returned tt (World (files w)
                         (stdout w ++ out ++ [lit "No videos found. Exiting."])).
Proof.
  intros w.
  exact (proj1 (proj2 (main_never_overwrites "site"
                         (ExtractRaises (lit "network unreachable")) w)) eq_refl).
Defined.

(** C7. One entry with the title [A & B], the id [abc123] and the upload
    date [20240101] becomes a video whose url is [https://youtu.be/abc123];
    with a document whose boundaries the splitter finds, the assembled
    document written to the side file is the header, the wrapper around
    exactly one fragment, and the footer, and the fragment shows the title
    as [A &amp; B], the date as [January 01, 2024] and the link
    [https://youtu.be/abc123]. *)
Theorem end_to_end w p side content :
  files w !! p = Some content ->
  primary_succeeds content ->
  exists video header footer w',
    video_of_entry (Some example_entry) = Some video
    /\ url video = lit "https://youtu.be/abc123"
    /\ read_existing_html p w = Returned (header, footer) w
    /\ generate_html_file [video] p true (Some side) w = Returned tt w'
    /\ video_sections [video] = [example_fragment]
    /\ files w' !! side
       = Some (header ++ wrapper_open ++ example_fragment ++ wrapper_close ++ footer).
Proof.
  intros Hf [[ms Hs] [me He]].
  pose proof (read_existing_html_primary w p content ms me Hf Hs He) as Hr.
  eexists _, _, _, _.
  split; [reflexivity|]. split; [reflexivity|]. split; [exact Hr|].
  split; [exact (generate_html_file_preview _ p side w _ _ w Hr)|].
  match goal with |- video_sections ?vs = _ /\ _ =>
    assert (video_sections vs = [example_fragment]) as Hvs
      by (vm_compute; reflexivity) end.
  split; [exact Hvs|].
  cbn [files]. rewrite lookup_insert_eq. unfold complete_html.
  rewrite content_html_parts, Hvs. cbn [str_join].
  now rewrite <- !app_assoc.
Qed.

Lemma end_to_end_witness :
  let content := lit "<body>" ++ content_tag ++ lit "old" ++ final_closing in
  exists video header footer w',
    video_of_entry (Some example_entry) = Some video
    /\ url video = lit "https://youtu.be/abc123"
    /\ read_existing_html "video-scripts.html"
         (World {[ "video-scripts.html" := content ]} [])
       = Returned (header, footer) (World {[ "video-scripts.html" := content ]} [])
    /\ generate_html_file [video] "video-scripts.html" true
         (Some "video-scripts-output.txt")
         (World {[ "video-scripts.html" := content ]} [])
       = Returned tt w'
    /\ video_sections [video] = [example_fragment]
    /\ files w' !! "video-scripts-output.txt"
       = Some (header ++ wrapper_open ++ example_fragment ++ wrapper_close ++ footer).
Proof.
  intros content.
  apply (end_to_end (World {[ "video-scripts.html" := content ]} [])
           "video-scripts.html" "video-scripts-output.txt" content).
  - apply lookup_singleton_eq.
  - split; eexists; vm_compute; reflexivity.
Defined.

(** * Properties beyond the specification's *)

(** X1. [fetch_channel_videos] never raises and touches no file. Every
    video it returns has an id that is not empty and the url
    [https://youtu.be/] followed by that id; the ids are those of the
    entries, the empty and the missing ones left out, in the order of the
    listing; when the library raises, or the listing has no entries, the
    result is the empty list. *)
Theorem fetch_channel_videos_safe extract_info channel_handle w :
  exists videos out,
    fetch_channel_videos extract_info channel_handle w
    = Returned videos (World (files w) (stdout w ++ out))
    /\ Forall (fun v => video_id v <> []
                        /\ url v = lit "https://youtu.be/" ++ video_id v) videos
    /\ (forall message, extract_info = ExtractRaises message -> videos = [])
    /\ (extract_info = ExtractInfo None -> videos = [])
    /\ (forall entries, extract_info = ExtractInfo (Some entries) ->
          map video_id videos = entry_ids entries).
Proof.
  destruct (fetch_channel_videos_returns extract_info channel_handle w) as [out Hout].
  exists (fetched_videos extract_info), out.
  split; [exact Hout|]. split; [apply fetched_videos_well_formed|].
  split; [now intros message ->|]. split; [now intros ->|].
  intros entries ->. apply fetched_ids.
Qed.

Lemma fetch_channel_videos_safe_witness :
  exists videos,
    map video_id videos
    = entry_ids [Some example_entry; None;
                 Some (YtEntry None (Some (lit "no id")) None None);
                 Some (YtEntry (Some []) None None None);
                 Some (YtEntry (Some (lit "xyz")) None None None)].
Proof.
  destruct (fetch_channel_videos_safe
              (ExtractInfo (Some [Some example_entry; None;
                 Some (YtEntry None (Some (lit "no id")) None None);
                 Some (YtEntry (Some []) None None None);
                 Some (YtEntry (Some (lit "xyz")) None None None)]))
              (lit "@PyStructEng") (World ∅ []))
    as (videos & out & _ & _ & _ & _ & H).
  exists videos. exact (H _ eq_refl).
Defined.

(** X2. When the output file can be read, [generate_html_file] returns in
    each of its modes, and the files afterwards are the files before with
    the assembled document in the side file, when one is given, and in the
    output file, unless the run is dry; every other file is as it was. *)
Theorem generate_html_file_frame videos p dry side w content :
  files w !! p = Some content ->
  exists header footer w1 w',
    read_existing_html p w = Returned (header, footer) w1
    /\ generate_html_file videos p dry side w = Returned tt w'
    /\ files w'
       = files_after (files w) p dry side (complete_html header footer videos)
    /\ (forall q, q <> p -> side <> Some q -> files w' !! q = files w !! q)
    /\ (dry = true -> side <> Some p -> files w' !! p = Some content).
Proof.
  intros Hf.
  destruct (read_existing_html_frame w p content Hf) as ([header footer] & out1 & Hr).
  destruct (generate_html_file_returns videos p dry side w header footer _ Hr)
    as [out Hg].
  cbn [files stdout] in Hg.
  eexists header, footer, _, _. split; [exact Hr|]. split; [exact Hg|].
  cbn [files]. split; [reflexivity|]. unfold files_after. split.
  - intros q Hq Hside. destruct side as [text_file|], dry;
      rewrite ?lookup_insert_ne by congruence; reflexivity.
  - intros -> Hside. destruct side as [text_file|];
      rewrite ?lookup_insert_ne by congruence; exact Hf.
Qed.

Lemma generate_html_file_frame_witness :
  let w := World {[ "video-scripts.html" := content_tag ++ final_closing ]} [] in
  exists header footer w1 w',
    read_existing_html "video-scripts.html" w = Returned (header, footer) w1
    /\ generate_html_file [] "video-scripts.html" false None w = Returned tt w'
    /\ files w'
       = files_after (files w) "video-scripts.html" false None
           (complete_html header footer []).
Proof.
  intros w.
  destruct (generate_html_file_frame [] "video-scripts.html" false None w
              (content_tag ++ final_closing) (lookup_singleton_eq _ _))
    as (header & footer & w1 & w' & H1 & H2 & H3 & _).
  exists header, footer, w1, w'. auto.
Defined.

(** X3. When the output file does not exist, [generate_html_file] raises
    [FileNotFoundError] in each of its modes and leaves the world as it
    was: no side file is written and nothing is printed. [main] then
    raises too, after the fetch, with every file as it was. *)
Theorem missing_output_file_raises videos p dry side w dir extract_info :
  (files w !! p = None ->
   generate_html_file videos p dry side w = Raised (FileNotFoundError p) w)
  /\ (fetched_videos extract_info <> [] ->
      files w !! path_join dir "video-scripts.html" = None ->
      exists w',
        main dir extract_info w
        = Raised (FileNotFoundError (path_join dir "video-scripts.html")) w'
        /\ files w' = files w).
Proof.
  split; [apply generate_html_file_missing|].
  intros Hv Hf. destruct (main_unfold dir extract_info w) as [out Hmain].
  rewrite Hmain. destruct (fetched_videos extract_info) as [|v vs]; [congruence|].
  unfold mbind, M_bind, bind.
  rewrite generate_html_file_missing by exact Hf. eauto.
Qed.

Lemma missing_output_file_raises_witness :
  generate_html_file [] "video-scripts.html" true (Some "video-scripts-output.txt")
    (World ∅ [])
  = Raised (FileNotFoundError "video-scripts.html") (World ∅ []).
Proof.
  apply (proj1 (missing_output_file_raises [] "video-scripts.html" true
                  (Some "video-scripts-output.txt") (World ∅ []) "site"
                  (ExtractInfo None))).
  apply lookup_empty.
Defined.

(** X4. Whatever the text of the file, the header the splitter returns is
    a prefix of it and the footer a suffix, and no file is changed. Either
    the header is the whole text and the footer is empty, or the header
    ends with the opening tag, which occurs nowhere else in it, and the
    footer is whitespace followed by the closing sequence. *)
Theorem split_is_prefix_and_suffix w p content header footer w' :
  files w !! p = Some content ->
  read_existing_html p w = Returned (header, footer) w' ->
  header `prefix_of` content /\ footer `suffix_of` content
  /\ files w' = files w
  /\ ((header = content /\ footer = [] /\ ~ primary_succeeds content)
      \/ (primary_succeeds content
          /\ (exists h, header = h ++ content_tag
                /\ forall j, occurs_at content_tag header j -> j = length h)
          /\ exists ws rest, footer = ws ++ rest /\ all_space ws
                             /\ closing_sequence rest)).
Proof.
  intros Hf Hr.
  destruct (re_search content_start_re content) as [ms|] eqn:Hs;
    [destruct (re_search content_end_re content) as [me|] eqn:He|].
  - rewrite (read_existing_html_primary w p content ms me Hf Hs He) in Hr.
    injection Hr as <- <- <-.
    split; [apply prefix_take|]. split; [apply suffix_drop|].
    split; [reflexivity|]. right.
    destruct (re_search_literal_some _ _ _ Hs) as [Hfirst Hend].
    destruct (re_search_some _ content_end_re_unambiguous _ _ He) as (_ & Hrun & _).
    split; [split; eauto|]. split.
    + exists (take (m_start ms) content). rewrite Hend.
      split; [now apply take_through_tag|].
      intros j Hj. rewrite (tag_only_at_end content (m_start ms) j Hfirst Hj).
      rewrite length_take. destruct Hfirst as [[Hi _] _]. lia.
    + now apply run_content_end_iff.
  - rewrite (read_existing_html_last_resort w p content Hf) in Hr by auto.
    injection Hr as <- <- <-.
    split; [reflexivity|]. split; [apply suffix_nil|]. split; [reflexivity|].
    left. repeat split. intros [_ [me' H]]. congruence.
  - rewrite (read_existing_html_last_resort w p content Hf) in Hr by auto.
    injection Hr as <- <- <-.
    split; [reflexivity|]. split; [apply suffix_nil|]. split; [reflexivity|].
    left. repeat split. intros [[ms' H] _]. congruence.
Qed.

Lemma split_is_prefix_and_suffix_witness :
  let content := lit "<body>" ++ content_tag ++ lit "old" ++ [c_nl] ++ final_closing in
  (lit "<body>" ++ content_tag) `prefix_of` content
  /\ ([c_nl] ++ final_closing) `suffix_of` content.
Proof.
  intros content.
  destruct (split_is_prefix_and_suffix
              (World {[ "video-scripts.html" := content ]} [])
              "video-scripts.html" content (lit "<body>" ++ content_tag)
              ([c_nl] ++ final_closing)
              (World {[ "video-scripts.html" := content ]} []))
    as (H1 & H2 & _).
  - apply lookup_singleton_eq.
  - vm_compute. reflexivity.
  - split; assumption.
Defined.

(** X5. Committing twice is committing once. When the primary strategy
    splits the output file into a header and a footer that do not overlap,
    and no video's url contains the closing sequence, a second run of
    [generate_html_file] that overwrites the output file leaves every file
    as the first run left it. *)
Theorem commit_twice_is_commit_once videos p side w content header footer :
  files w !! p = Some content ->
  primary_succeeds content ->
  read_existing_html p w = Returned (header, footer) w ->
  length header + length footer <= length content ->
  Forall (fun v => ~ contains_closing (url v)) videos ->
  exists w1 w2,
    generate_html_file videos p false side w = Returned tt w1
    /\ files w1 !! p = Some (complete_html header footer videos)
    /\ generate_html_file videos p false side w1 = Returned tt w2
    /\ files w2 = files w1.
Proof.
  intros Hf Hp Hr Hover Hvs.
  destruct (generate_html_file_returns videos p false side w header footer w Hr)
    as [out1 Hg1].
  eexists _. destruct (primary_split w p content header footer Hf Hp Hr)
    as (i & m & Hfirst & Hh & Hlen & Hm & Hfoot & Hrun & Hno).
  set (w1 := World (files_after (files w) p false side
                      (complete_html header footer videos)) (stdout w ++ out1)) in *.
  assert (files w1 !! p = Some (complete_html header footer videos)) as Hf1.
  { unfold w1, files_after. cbn [files]. apply lookup_insert_eq. }
  assert (read_existing_html p w1 = Returned (header, footer) w1) as Hr1.
  { subst header footer. rewrite length_take in Hlen.
    rewrite length_take, length_drop in Hover.
    apply (resplit_footer content i m videos w1 p Hfirst); auto; lia. }
  destruct (generate_html_file_returns videos p false side w1 header footer w1 Hr1)
    as [out2 Hg2].
  eexists _. split; [exact Hg1|]. split; [exact Hf1|]. split; [exact Hg2|].
  unfold w1. cbn [files]. apply files_after_twice.
Qed.

Lemma commit_twice_is_commit_once_witness :
  let content := lit "<body>" ++ content_tag ++ lit "old" ++ [c_nl] ++ final_closing in
  let header := lit "<body>" ++ content_tag in
  let footer := [c_nl] ++ final_closing in
  let videos := [VideoData (lit "A & B") (lit "abc123") (lit "https://youtu.be/abc123")
                   (lit "20240101") []] in
  let w := World {[ "video-scripts.html" := content ]} [] in
  exists w1 w2,
    generate_html_file videos "video-scripts.html" false None w = Returned tt w1
    /\ files w1 !! "video-scripts.html" = Some (complete_html header footer videos)
    /\ generate_html_file videos "video-scripts.html" false None w1 = Returned tt w2
    /\ files w2 = files w1.
Proof.
  intros content header footer videos w.
  apply (commit_twice_is_commit_once videos "video-scripts.html" None w content
           header footer).
  - apply lookup_singleton_eq.
  - split; eexists; vm_compute; reflexivity.
  - vm_compute. reflexivity.
  - vm_compute. lia.
  - constructor; [|constructor].
    apply contains_closing_check. vm_compute. reflexivity.
Defined.

(** X6. A document without the closing sequence grows with every commit.
    The splitter falls to its last resort, the whole text is the header,
    and the run appends the generated content to it; the result has no
    closing sequence either, so the next run appends the content again. *)
Theorem commit_without_closing_appends videos p w content :
  files w !! p = Some content ->
  ~ contains_closing content ->
  Forall (fun v => ~ contains_closing (url v)) videos ->
  exists w1 w2,
    generate_html_file videos p false None w = Returned tt w1
    /\ files w1 !! p = Some (content ++ content_html videos)
    /\ generate_html_file videos p false None w1 = Returned tt w2
    /\ files w2 !! p
       = Some (content ++ content_html videos ++ content_html videos).
Proof.
  intros Hf Hc Hvs.
  assert (forall w0 text, files w0 !! p = Some text -> ~ contains_closing text ->
            exists w',
              generate_html_file videos p false None w0 = Returned tt w'
              /\ files w' !! p = Some (text ++ content_html videos)) as Hstep.
  { intros w0 text Hf0 Hc0.
    assert (read_existing_html p w0 = Returned (text, []) (warned w0)) as Hr.
    { rewrite (read_existing_html_last_resort w0 p text Hf0); [reflexivity|].
      right. now apply contains_closing_iff_search. }
    destruct (generate_html_file_returns videos p false None w0 _ _ _ Hr)
      as [out Hg].
    eexists. split; [exact Hg|]. cbn [files files_after warned].
    rewrite lookup_insert_eq. unfold complete_html. now rewrite app_nil_r. }
  destruct (Hstep w content Hf Hc) as (w1 & Hg1 & Hf1).
  destruct (Hstep w1 _ Hf1 (no_closing_after_append content videos Hc Hvs))
    as (w2 & Hg2 & Hf2).
  exists w1, w2. rewrite <- app_assoc in Hf2. auto.
Qed.

Lemma commit_without_closing_appends_witness :
  let content := lit "<body>" ++ content_tag ++ lit "old</div>" in
  let w := World {[ "video-scripts.html" := content ]} [] in
  exists w1 w2,
    generate_html_file [] "video-scripts.html" false None w = Returned tt w1
    /\ files w1 !! "video-scripts.html" = Some (content ++ content_html [])
    /\ generate_html_file [] "video-scripts.html" false None w1 = Returned tt w2
    /\ files w2 !! "video-scripts.html"
       = Some (content ++ content_html [] ++ content_html []).
Proof.
  intros content w.
  apply (commit_without_closing_appends [] "video-scripts.html" w content).
  - apply lookup_singleton_eq.
  - apply contains_closing_check. vm_compute. reflexivity.
  - constructor.
Defined.

(** X7. Escaping a title loses nothing: two titles that the three
    replacements of [generate_video_section_html] turn into the same text
    are the same title. *)
Theorem title_escaping_injective t1 t2 :
  title_replacements t1 = title_replacements t2 -> t1 = t2.
Proof.
  unfold title_replacements. rewrite !replace_chain_escaped. apply escaped_inj.
Qed.

Lemma title_escaping_injective_witness :
  lit "R&D <1>" = [82; 38; 68; 32; 60; 49; 62]%N.
Proof.
  apply title_escaping_injective. vm_compute. reflexivity.
Defined.

(** X8. The title and the date add no markup to a fragment: it has as many
    [<] as the template, twelve, and the url together, and as many [>]. *)
Theorem section_markup_count video :
  count_char c_lt (generate_video_section_html video)
  = 12 + count_char c_lt (url video)
  /\ count_char c_gt (generate_video_section_html video)
     = 12 + count_char c_gt (url video).
Proof.
  rewrite generate_video_section_html_parts, !count_char_app.
  rewrite (count_char_lacks c_lt (escaped _)) by apply escaped_lacks_lt.
  rewrite (count_char_lacks c_gt (escaped _)) by apply escaped_lacks_gt.
  rewrite (count_char_lacks c_lt (format_date _)) by apply format_date_lacks_lt.
  rewrite (count_char_lacks c_gt (format_date _)) by apply format_date_lacks_gt.
  change (count_char c_lt section_before_title) with 3.
  change (count_char c_lt section_before_date) with 2.
  change (count_char c_lt section_before_url) with 2.
  change (count_char c_lt section_after_url) with 5.
  change (count_char c_gt section_before_title) with 3.
  change (count_char c_gt section_before_date) with 2.
  change (count_char c_gt section_before_url) with 1.
  change (count_char c_gt section_after_url) with 6.
  lia.
Qed.

(** X9. Every video has its section in the generated content: there are as
    many sections as videos, and the section of each video of the list
    occurs in the content. *)
Theorem every_video_has_a_section videos :
  length (video_sections videos) = length videos
  /\ forall v, In v videos ->
       contains (generate_video_section_html v) (content_html videos).
Proof.
  split.
  - unfold video_sections. rewrite length_map.
    apply Permutation_length, sorted_desc_perm.
  - intros v Hv.
    assert (In (generate_video_section_html v) (video_sections videos)) as Hin.
    { unfold video_sections. apply in_map.
      eapply Permutation_in; [symmetry; apply sorted_desc_perm | exact Hv]. }
    destruct (str_join_member [c_nl] _ _ Hin) as (a & r & E).
    rewrite content_html_parts, E.
    exists (length (wrapper_open ++ a)).
    replace (wrapper_open ++ (a ++ generate_video_section_html v ++ r) ++ wrapper_close)
      with ((wrapper_open ++ a) ++ generate_video_section_html v ++ r ++ wrapper_close)
      by now rewrite <- !app_assoc.
    apply occurs_here.
Qed.

Lemma every_video_has_a_section_witness :
  let a := VideoData (lit "first") (lit "a") (lit "https://youtu.be/a") (lit "20240301") [] in
  let b := VideoData (lit "second") (lit "b") (lit "https://youtu.be/b") [] [] in
  contains (generate_video_section_html b) (content_html [b; a]).
Proof.
  intros a b. apply (proj2 (every_video_has_a_section [b; a])). simpl. auto.
Defined.

(** X10. The sort is stable: the videos that have one and the same sort
    key, among them those without a date, are in the sorted list in the
    order in which they were fetched. *)
Theorem sort_keeps_ties_in_order videos k :
  filter (fun v => date_key v = k) (videos_sorted videos)
  = filter (fun v => date_key v = k) videos.
Proof. apply sorted_desc_filter. Qed.

(** X11. The newest video comes first. On the eight digits of dates the
    order of the texts, by which the videos are sorted, is the order of the
    dates; so of two videos with valid dates the one that stands first in
    the sorted list is not the older one. *)
Theorem sorted_newest_first videos :
  (forall y m d y' m' d',
      valid_date y m d -> valid_date y' m' d' ->
      (text_ltb (yyyymmdd y m d) (yyyymmdd y' m' d') = true
       <-> (date_number y m d < date_number y' m' d')%Z))
  /\ (forall l1 a l2 b l3 y m d y' m' d',
      videos_sorted videos = l1 ++ a :: l2 ++ b :: l3 ->
      upload_date a = yyyymmdd y m d -> valid_date y m d ->
      upload_date b = yyyymmdd y' m' d' -> valid_date y' m' d' ->
      (date_number y' m' d' <= date_number y m d)%Z).
Proof.
  assert (forall y m d y' m' d',
            valid_date y m d -> valid_date y' m' d' ->
            (text_ltb (yyyymmdd y m d) (yyyymmdd y' m' d') = true
             <-> (date_number y m d < date_number y' m' d')%Z)) as Horder.
  { intros y m d y' m' d' Hv Hv'.
    apply valid_date_ranges in Hv as (? & ? & ?).
    apply valid_date_ranges in Hv' as (? & ? & ?).
    now apply text_ltb_yyyymmdd. }
  split; [exact Horder|].
  intros l1 a l2 b l3 y m d y' m' d' Hs Ha Hv Hb Hv'.
  pose proof (sorted_desc_sorted date_key videos) as Hsorted.
  fold (videos_sorted videos) in Hsorted. rewrite Hs in Hsorted.
  apply StronglySorted_precedes in Hsorted.
  unfold date_key in Hsorted. rewrite Ha, Hb in Hsorted.
  change (text_ltb (yyyymmdd y m d) (yyyymmdd y' m' d') = false) in Hsorted.
  destruct (Z_lt_le_dec (date_number y m d) (date_number y' m' d')) as [Hlt|Hle];
    [|exact Hle].
  apply (Horder y m d y' m' d' Hv Hv') in Hlt. congruence.
Qed.

Lemma sorted_newest_first_witness :
  text_ltb (lit "20231231") (lit "20240101") = true
  <-> (date_number 2023 12 31 < date_number 2024 1 1)%Z.
Proof.
  apply (proj1 (sorted_newest_first []) 2023 12 31 2024 1 1)%Z;
    unfold valid_date; vm_compute; intuition discriminate.
Defined.

(** X12. Different dates are rendered differently: two valid dates whose
    eight digits [format_date] renders as the same text are the same
    date. *)
Theorem format_date_injective y m d y' m' d' :
  valid_date y m d -> valid_date y' m' d' ->
  format_date (yyyymmdd y m d) = format_date (yyyymmdd y' m' d') ->
  y = y' /\ m = m' /\ d = d'.
Proof.
  intros Hv Hv'.
  pose proof (valid_date_ranges y m d Hv) as (Hy & Hm & Hd).
  pose proof (valid_date_ranges y' m' d' Hv') as (Hy' & Hm' & Hd').
  rewrite !format_date_digits by assumption.
  rewrite (make_date_valid y m d Hv), (make_date_valid y' m' d' Hv').
  unfold strftime_BdY. cbn [year month day].
  change (lit " ") with [32%N]. cbn [app]. intros H.
  destruct Hv as (_ & Hm1 & _), Hv' as (_ & Hm1' & _).
  apply month_name_sep in H as [<- H]; [|assumption..].
  unfold two_digits in H. cbn [app lit list_ascii_of_string map] in H.
  injection H as D1 D2 Y.
  pose proof (Z.mod_pos_bound (d / 10) 10 ltac:(lia)).
  pose proof (Z.mod_pos_bound d 10 ltac:(lia)).
  pose proof (Z.mod_pos_bound (d' / 10) 10 ltac:(lia)).
  pose proof (Z.mod_pos_bound d' 10 ltac:(lia)).
  apply digit_char_inj in D1, D2; try lia.
  apply strftime_Y_inj in Y; [|assumption..].
  pose proof (digits_of_two d Hd). pose proof (digits_of_two d' Hd').
  repeat split; lia.
Qed.

Lemma format_date_injective_witness :
  (2024 = 2024 /\ 2 = 2 /\ 29 = 29)%Z.
Proof.
  apply (format_date_injective 2024 2 29 2024 2 29);
    unfold valid_date; vm_compute; intuition discriminate.
Defined.

(** X13. Running [main] again changes nothing more. When the HTML file can
    be read, [main] returns, and a second run with the same answer of the
    video library returns too and leaves every file as the first run left
    it: the HTML file is never changed, so the side file is written with
    the same document again. *)
Theorem main_twice_is_main_once dir extract_info w content :
  files w !! path_join dir "video-scripts.html" = Some content ->
  exists w1 w2,
    main dir extract_info w = Returned tt w1
    /\ main dir extract_info w1 = Returned tt w2
    /\ files w2 = files w1.
Proof.
  intros Hf. destruct (main_returns dir extract_info content) as [document Hmain].
  destruct (Hmain w Hf) as [out1 H1].
  assert (path_join dir "video-scripts.html"
          <> path_join dir "video-scripts-output.txt") as Hne
    by apply output_paths_differ.
  destruct (fetched_videos extract_info) as [|v vs].
  - destruct (Hmain (World (files w) (stdout w ++ out1)) Hf) as [out2 H2].
    eexists _, _. split; [exact H1|]. split; [exact H2|]. reflexivity.
  - set (w1 := World (<[path_join dir "video-scripts-output.txt" := document]>
                       (files w)) (stdout w ++ out1)) in *.
    assert (files w1 !! path_join dir "video-scripts.html" = Some content) as Hf1.
    { unfold w1. cbn [files]. rewrite lookup_insert_ne by congruence. exact Hf. }
    destruct (Hmain w1 Hf1) as [out2 H2].
    eexists _, _. split; [exact H1|]. split; [exact H2|].
    unfold w1. cbn [files]. apply insert_insert_eq.
Qed.

Lemma main_twice_is_main_once_witness :
  let w := World {[ "site/video-scripts.html" :=
                      lit "<body>" ++ content_tag ++ lit "old" ++ final_closing ]} [] in
  exists w1 w2,
    main "site" (ExtractInfo (Some [Some example_entry])) w = Returned tt w1
    /\ main "site" (ExtractInfo (Some [Some example_entry])) w1 = Returned tt w2
    /\ files w2 = files w1.
Proof.
  intros w.
  apply (main_twice_is_main_once "site" (ExtractInfo (Some [Some example_entry])) w
           (lit "<body>" ++ content_tag ++ lit "old" ++ final_closing)).
  apply lookup_singleton_eq.
Defined.
